(** * Sequential multi-file decryption workflow (main.py)

    A shallow embedding of the Streamlit script [main.py]: the session
    state, the helper functions around the two document libraries, the
    two button callbacks, the ingestion loop of the run button and the
    tail of the script, followed by the properties of the workflow. *)

From Stdlib Require Import ZArith NArith Ascii String.
From stdpp Require Import base list strings.

Local Open Scope string_scope.
Local Open Scope list_scope.

(** ** Data model *)

(** The content of a file, as returned by [file.read()]. *)
Abbreviation bytes := (list Byte.byte).

(** An uploaded file as the ingestion loop sees it: [file.name] and the
    result of [file.read()]. *)
Record UploadedFile := {
  name : string;
  data : bytes;
}.

(** The inner dictionary stored under [file_status[name]]; its seven keys
    are fixed by the literal of the ingestion loop. *)
Record FileStatus := {
  extension : string;
  encrypted : bool;
  decrypted : bool;
  excluded : bool;
  content : option bytes;
  file_bytes : bytes;
  error : option string;
}.

Definition set_encrypted (b : bool) (r : FileStatus) : FileStatus :=
  {| extension := extension r; encrypted := b; decrypted := decrypted r;
     excluded := excluded r; content := content r;
     file_bytes := file_bytes r; error := error r |}.

Definition set_decrypted (b : bool) (r : FileStatus) : FileStatus :=
  {| extension := extension r; encrypted := encrypted r; decrypted := b;
     excluded := excluded r; content := content r;
     file_bytes := file_bytes r; error := error r |}.

Definition set_excluded (b : bool) (r : FileStatus) : FileStatus :=
  {| extension := extension r; encrypted := encrypted r;
     decrypted := decrypted r; excluded := b; content := content r;
     file_bytes := file_bytes r; error := error r |}.

Definition set_content (c : option bytes) (r : FileStatus) : FileStatus :=
  {| extension := extension r; encrypted := encrypted r;
     decrypted := decrypted r; excluded := excluded r; content := c;
     file_bytes := file_bytes r; error := error r |}.

(** ** Python dictionaries

    A [dict] keeps its keys in insertion order, and [get_current_file]
    depends on that order, so [file_status] is an association list.
    Assigning to an existing key replaces the value where the key already
    stands; a new key goes to the end. *)
Module Dict.

Fixpoint get {V : Type} (k : string) (d : list (string * V)) : option V :=
  match d with
  | [] => None
  | (k', v) :: d' => if decide (k = k') then Some v else get k d'
  end.

Fixpoint set {V : Type} (k : string) (v : V) (d : list (string * V))
  : list (string * V) :=
  match d with
  | [] => [(k, v)]
  | (k', v') :: d' =>
      if decide (k = k') then (k', v) :: d' else (k', v') :: set k v d'
  end.

Definition keys {V : Type} (d : list (string * V)) : list string := d.*1.

End Dict.

(** ** Session state *)

Record SessionState := {
  file_status : list (string * FileStatus);
  processing : bool;
  decrypted_files : list string;
  excluded_files : list string;
  error_message : string;
  password_input : string;
}.

Definition with_file_status (d : list (string * FileStatus))
  (st : SessionState) : SessionState :=
  {| file_status := d; processing := processing st;
     decrypted_files := decrypted_files st;
     excluded_files := excluded_files st;
     error_message := error_message st;
     password_input := password_input st |}.

Definition with_processing (b : bool) (st : SessionState) : SessionState :=
  {| file_status := file_status st; processing := b;
     decrypted_files := decrypted_files st;
     excluded_files := excluded_files st;
     error_message := error_message st;
     password_input := password_input st |}.

Definition with_decrypted_files (l : list string) (st : SessionState)
  : SessionState :=
  {| file_status := file_status st; processing := processing st;
     decrypted_files := l;
     excluded_files := excluded_files st;
     error_message := error_message st;
     password_input := password_input st |}.

Definition with_excluded_files (l : list string) (st : SessionState)
  : SessionState :=
  {| file_status := file_status st; processing := processing st;
     decrypted_files := decrypted_files st;
     excluded_files := l;
     error_message := error_message st;
     password_input := password_input st |}.

Definition with_error_message (m : string) (st : SessionState)
  : SessionState :=
  {| file_status := file_status st; processing := processing st;
     decrypted_files := decrypted_files st;
     excluded_files := excluded_files st;
     error_message := m;
     password_input := password_input st |}.

Definition with_password_input (p : string) (st : SessionState)
  : SessionState :=
  {| file_status := file_status st; processing := processing st;
     decrypted_files := decrypted_files st;
     excluded_files := excluded_files st;
     error_message := error_message st;
     password_input := p |}.

(** The state after the initialisation block of the script (every key
    absent, so every default is stored). *)
Definition initial_state : SessionState :=
  {| file_status := []; processing := false; decrypted_files := [];
     excluded_files := []; error_message := ""; password_input := "" |}.

(** ** Code that reads and writes the session state

    A state monad with exceptions: indexing a dictionary by a missing key
    raises [KeyError], and what was written before the exception stays
    written. *)
Inductive exn := KeyError (k : string).

Inductive outcome (A : Type) :=
| Ok (a : A)
| Raise (e : exn).
Arguments Ok {A} a.
Arguments Raise {A} e.

Definition M (A : Type) : Type := SessionState → outcome A * SessionState.

Definition ret {A : Type} (a : A) : M A := λ st, (Ok a, st).

Definition bind {A B : Type} (m : M A) (k : A → M B) : M B :=
  λ st, match m st with
        | (Ok a, st') => k a st'
        | (Raise e, st') => (Raise e, st')
        end.

Notation "'do' x <- m ; k" := (bind m (λ x, k))
  (at level 10, x name, m at level 100, k at level 200).
Notation "m ;; k" := (bind m (λ _, k))
  (at level 100, k at level 200, right associativity).

Definition gets {A : Type} (proj : SessionState → A) : M A :=
  λ st, (Ok (proj st), st).

Definition modify (f : SessionState → SessionState) : M unit :=
  λ st, (Ok (), f st).

(** [st.session_state["file_status"][f][field]] *)
Definition get_field {A : Type} (f : string) (field : FileStatus → A) : M A :=
  λ st, match Dict.get f (file_status st) with
        | Some r => (Ok (field r), st)
        | None => (Raise (KeyError f), st)
        end.

(** [st.session_state["file_status"][f][field] = value] *)
Definition set_field (f : string) (upd : FileStatus → FileStatus) : M unit :=
  λ st, match Dict.get f (file_status st) with
        | Some r => (Ok (), with_file_status (Dict.set f (upd r) (file_status st)) st)
        | None => (Raise (KeyError f), st)
        end.

(** [for x in l: body(x)] *)
Fixpoint for_each {A : Type} (body : A → M unit) (l : list A) : M unit :=
  match l with
  | [] => ret ()
  | x :: l' => body x ;; for_each body l'
  end.

(** Truth value of a string, as [if s:] tests it. *)
Definition truthy (s : string) : bool :=
  match s with
  | "" => false
  | _ => true
  end.

(** Truth value of [str or None]. *)
Definition truthy_opt (o : option string) : bool :=
  match o with
  | Some s => truthy s
  | None => false
  end.

(** ** Strings *)

(** [s.split(".")]: the pieces between the dots, as the first piece and
    the list of the others; the result of [split] is never empty. *)
Fixpoint split_dot_pieces (s : string) : string * list string :=
  match s with
  | "" => ("", [])
  | String c s' =>
      let '(w, ws) := split_dot_pieces s' in
      if decide (c = "."%char) then ("", w :: ws) else (String c w, ws)
  end.

Definition split_dot (s : string) : list string :=
  let '(w, ws) := split_dot_pieces s in w :: ws.

(** [s.lower()], on the ASCII letters. Python lowers every cased
    character, so on a name whose last piece has a cased character
    outside ASCII the stored extension differs from the one of the
    script. The script only compares the extension with the four ASCII
    extensions, and only the ASCII capitals lower to the letters of
    those, so every comparison comes out as in the script. *)
Definition lower_ascii (c : ascii) : ascii :=
  let n := N_of_ascii c in
  if ((65 <=? n) && (n <=? 90))%N then ascii_of_N (n + 32) else c.

Fixpoint lower (s : string) : string :=
  match s with
  | "" => ""
  | String c s' => String (lower_ascii c) (lower s')
  end.

(** [name.split(".")[-1].lower()] *)
Definition extension_of (file_name : string) : string :=
  lower (default "" (last (split_dot file_name))).

(** ** The two document libraries

    PyPDF2 and msoffcrypto are outside the script. Each entry is the
    library call sequence of one helper, with [None] when any call of
    the sequence raises. *)
Record Library := {
  (** [PyPDF2.PdfReader(io.BytesIO(b)).is_encrypted] *)
  PdfReader_is_encrypted : bytes → option bool;
  (** [PyPDF2.PdfReader(io.BytesIO(b)).decrypt(password)]: 0 on failure,
      1 or 2 on success. *)
  PdfReader_decrypt : bytes → string → option Z;
  (** [msoffcrypto.OfficeFile(io.BytesIO(b)).is_encrypted()] *)
  OfficeFile_is_encrypted : bytes → option bool;
  (** [OfficeFile(...)], [load_key(password=...)], [decrypt(out)],
      [out.getvalue()] *)
  OfficeFile_decrypt : bytes → string → option bytes;
}.

(** ** Helper functions *)

Definition is_pdf_encrypted (lib : Library) (file_bytes : bytes) : bool :=
  match PdfReader_is_encrypted lib file_bytes with
  | Some is_encrypted => is_encrypted
  | None => false
  end.

Definition decrypt_pdf (lib : Library) (file_bytes : bytes) (password : string)
  : bool :=
  match PdfReader_decrypt lib file_bytes password with
  | Some result => negb (result =? 0)%Z
  | None => false
  end.

Definition is_office_encrypted (lib : Library) (file_bytes : bytes) : bool :=
  match OfficeFile_is_encrypted lib file_bytes with
  | Some is_encrypted => is_encrypted
  | None => false
  end.

Definition decrypt_office (lib : Library) (file_bytes : bytes)
  (password : string) : option bytes :=
  match OfficeFile_decrypt lib file_bytes password with
  | Some decrypted => Some decrypted
  | None => None
  end.

(** The condition of the comprehension in [get_current_file]. *)
Definition is_pending (r : FileStatus) : bool :=
  encrypted r && negb (decrypted r) && negb (excluded r).

(** Iterating over the dictionary yields its keys in insertion order, and
    indexing by such a key yields the record of its entry, so the
    comprehension filters the entries. *)
Definition get_current_file : M (option string) :=
  do d <- gets file_status;
  let encrypted_files := (filter (λ fr, is_pending fr.2) d).*1 in
  match encrypted_files with
  | f :: _ => ret (Some f)
  | [] => ret None
  end.

(** ** Callbacks *)

Definition msg_password_required : string :=
  "パスワードを入力してください。".

Definition msg_password_incorrect : string :=
  "パスワードが正しくありません。再度お試しください。".

Definition msg_cancelled (current_file : string) : string :=
  "ファイル '" +:+ current_file +:+ "' の処理をキャンセルしました。".

Definition handle_submit (lib : Library) : M unit :=
  do current_file <- get_current_file;
  match current_file with
  | None => ret ()
  | Some current_file =>
    if negb (truthy current_file) then ret () else
    do password_attempt <- gets password_input;
    if negb (truthy password_attempt) then
      modify (with_error_message msg_password_required)
    else
      do extension <- get_field current_file extension;
      do file_bytes <- get_field current_file file_bytes;
      do success <-
        (if decide (extension = "pdf") then
           ret (decrypt_pdf lib file_bytes password_attempt)
         else
           let decrypted_bytes := decrypt_office lib file_bytes password_attempt in
           match decrypted_bytes with
           | Some _ =>
               set_field current_file (set_content decrypted_bytes);;
               ret true
           | None => ret false
           end);
      if success then
        set_field current_file (set_decrypted true);;
        modify (λ st, with_decrypted_files (decrypted_files st ++ [current_file]) st);;
        modify (with_error_message "");;
        modify (with_password_input "")
      else
        modify (with_error_message msg_password_incorrect)
  end.

Definition handle_cancel : M unit :=
  do current_file <- get_current_file;
  match current_file with
  | None => ret ()
  | Some current_file =>
    if negb (truthy current_file) then ret () else
    set_field current_file (set_excluded true);;
    modify (λ st, with_excluded_files (excluded_files st ++ [current_file]) st);;
    modify (with_error_message (msg_cancelled current_file));;
    modify (with_password_input "")
  end.

(** ** The script body *)

(** The literal stored for a file at the top of the loop body. *)
Definition new_record (file_name : string) (file_bytes : bytes) : FileStatus :=
  {| extension := extension_of file_name; encrypted := false;
     decrypted := false; excluded := false; content := None;
     file_bytes := file_bytes; error := None |}.

(** One iteration of [for file in uploaded_files]. *)
Definition ingest_file (lib : Library) (file : UploadedFile) : M unit :=
  let file_bytes := data file in
  modify (λ st, with_file_status
    (Dict.set (name file) (new_record (name file) file_bytes) (file_status st)) st);;
  do extension <- get_field (name file) extension;
  let encrypted :=
    if decide (extension = "pdf") then is_pdf_encrypted lib file_bytes
    else if decide (extension ∈ ["docx"; "xlsx"; "pptx"]) then
      is_office_encrypted lib file_bytes
    else false in
  set_field (name file) (set_encrypted encrypted);;
  if negb encrypted then
    set_field (name file) (set_decrypted true);;
    modify (λ st, with_decrypted_files (decrypted_files st ++ [name file]) st)
  else ret ().

(** The assignments that reset the session state when the run button is
    pressed with files selected. *)
Definition reset_session : M unit :=
  modify (with_processing true);;
  modify (with_file_status []);;
  modify (with_decrypted_files []);;
  modify (with_excluded_files []);;
  modify (with_error_message "");;
  modify (with_password_input "").

(** [if st.button(...)] taken: the branch on [uploaded_files]. *)
Definition run_button (lib : Library) (uploaded_files : list UploadedFile)
  : M unit :=
  match uploaded_files with
  | _ :: _ =>
      reset_session;;
      for_each (ingest_file lib) uploaded_files
  | [] => ret ()
  end.

(** [if st.session_state["processing"]:] at the end of the script; the
    dialog and the report write nothing but the flag. *)
Definition script_tail : M unit :=
  do processing <- gets processing;
  if processing then
    do current_file <- get_current_file;
    if truthy_opt current_file then ret ()
    else modify (with_processing false)
  else ret ().

(** ** Events

    Streamlit runs the callback of the clicked button and then reruns the
    dialog function, which reruns the whole script once no file is
    pending. The tail of the script writes to the session state only when
    no file is pending, so the callback followed by the tail is what an
    event does to the session state. Text typed into the dialog is stored
    under the key of the text input. *)
Inductive event :=
| Run (uploaded_files : list UploadedFile)
| TypePassword (password : string)
| Submit
| Cancel.

Definition step (lib : Library) (e : event) : M unit :=
  match e with
  | Run uploaded_files => run_button lib uploaded_files;; script_tail
  | TypePassword password => modify (with_password_input password);; script_tail
  | Submit => handle_submit lib;; script_tail
  | Cancel => handle_cancel;; script_tail
  end.

(** The events that replace the batch. *)
Definition starts_run (e : event) : Prop :=
  match e with
  | Run (_ :: _) => True
  | _ => False
  end.

(** States the script can be in, when every event satisfies [allowed]. *)
Inductive reachable_by (lib : Library) (allowed : event → Prop)
  : SessionState → Prop :=
| reach_init : reachable_by lib allowed initial_state
| reach_step st e :
    reachable_by lib allowed st →
    allowed e →
    reachable_by lib allowed (step lib e st).2.

Definition reachable (lib : Library) : SessionState → Prop :=
  reachable_by lib (λ _, True).

(** The assumption of the data model: the names of one batch are
    pairwise different. *)
Definition unique_names (e : event) : Prop :=
  match e with
  | Run uploaded_files => NoDup (name <$> uploaded_files)
  | _ => True
  end.

(** States of the run that ingested [uploaded_files]. *)
Inductive in_run (lib : Library) (uploaded_files : list UploadedFile)
  : SessionState → Prop :=
| run_start st :
    uploaded_files ≠ [] →
    in_run lib uploaded_files (step lib (Run uploaded_files) st).2
| run_step st e :
    in_run lib uploaded_files st →
    ¬ starts_run e →
    in_run lib uploaded_files (step lib e st).2.

(** ** Vocabulary of the properties *)

(** The record stored under [f] is pending. *)
Definition pending_in (d : list (string * FileStatus)) (f : string) : bool :=
  match Dict.get f d with
  | Some r => is_pending r
  | None => false
  end.

(** The record stored under [f] is resolved: decrypted or excluded. *)
Definition resolved_in (d : list (string * FileStatus)) (f : string) : bool :=
  match Dict.get f d with
  | Some r => decrypted r || excluded r
  | None => false
  end.

(** The result of [get_current_file] on the dictionary [d]. *)
Definition first_pending (d : list (string * FileStatus)) : option string :=
  head (filter (λ fr, is_pending fr.2) d).*1.

(** The value the loop body assigns to [encrypted]. *)
Definition detected_encrypted (lib : Library) (file : UploadedFile) : bool :=
  if decide (extension_of (name file) = "pdf") then
    is_pdf_encrypted lib (data file)
  else if decide (extension_of (name file) ∈ ["docx"; "xlsx"; "pptx"]) then
    is_office_encrypted lib (data file)
  else false.

(** The record a file has when its loop iteration ends. *)
Definition ingested_record (lib : Library) (file : UploadedFile) : FileStatus :=
  {| extension := extension_of (name file);
     encrypted := detected_encrypted lib file;
     decrypted := negb (detected_encrypted lib file);
     excluded := false; content := None;
     file_bytes := data file; error := None |}.

(** What a password attempt on record [r] makes of the record: the
    decrypted record when the attempt succeeds, nothing when it fails. *)
Definition attempt (lib : Library) (r : FileStatus) (password : string)
  : option FileStatus :=
  if decide (extension r = "pdf") then
    if decrypt_pdf lib (file_bytes r) password
    then Some (set_decrypted true r) else None
  else
    match decrypt_office lib (file_bytes r) password with
    | Some b => Some (set_decrypted true (set_content (Some b) r))
    | None => None
    end.

(** The names of a list in the order of their first occurrence. *)
Fixpoint first_occurrences (l : list string) : list string :=
  match l with
  | [] => []
  | x :: l' => x :: filter (λ y, y ≠ x) (first_occurrences l')
  end.

(** Well-formed session states: [file_status] is a dictionary, and only
    files with a name are encrypted. *)
Record well_formed (st : SessionState) : Prop := {
  wf_keys : NoDup (Dict.keys (file_status st));
  wf_named : ∀ f r,
    Dict.get f (file_status st) = Some r → encrypted r = true → f ≠ "";
}.

(** The two name lists record the flags of the records. *)
Record accounted (st : SessionState) : Prop := {
  acc_decrypted : ∀ f,
    f ∈ decrypted_files st ↔
    ∃ r, Dict.get f (file_status st) = Some r ∧ decrypted r = true;
  acc_excluded : ∀ f,
    f ∈ excluded_files st ↔
    ∃ r, Dict.get f (file_status st) = Some r ∧ excluded r = true;
  acc_exclusive : ∀ f r,
    Dict.get f (file_status st) = Some r →
    decrypted r = true → excluded r = true → False;
}.

(** The dictionary the ingestion loop builds on top of [d]. *)
Definition ingested_status (lib : Library) (uploaded_files : list UploadedFile)
  (d : list (string * FileStatus)) : list (string * FileStatus) :=
  foldl (λ d file, Dict.set (name file) (ingested_record lib file) d)
    d uploaded_files.

(** The names the ingestion loop appends to [decrypted_files]. *)
Definition ingested_names (lib : Library) (uploaded_files : list UploadedFile)
  : list string :=
  name <$> filter (λ file, detected_encrypted lib file = false) uploaded_files.

(** The session state when the ingestion loop ends. *)
Definition ingested_state (lib : Library) (uploaded_files : list UploadedFile)
  : SessionState :=
  {| file_status := ingested_status lib uploaded_files [];
     processing := true;
     decrypted_files := ingested_names lib uploaded_files;
     excluded_files := []; error_message := ""; password_input := "" |}.

(** What one event does to the registry: the dictionary and the two
    name lists. [batch_ok] holds of every batch that is ingested. *)
Inductive registry_step (lib : Library)
  (batch_ok : list UploadedFile → Prop) (st st' : SessionState) : Prop :=
| rs_same :
    file_status st' = file_status st →
    decrypted_files st' = decrypted_files st →
    excluded_files st' = excluded_files st →
    registry_step lib batch_ok st st'
| rs_decrypt f r r' :
    first_pending (file_status st) = Some f →
    Dict.get f (file_status st) = Some r →
    is_pending r = true →
    attempt lib r (password_input st) = Some r' →
    file_status st' = Dict.set f r' (file_status st) →
    decrypted_files st' = decrypted_files st ++ [f] →
    excluded_files st' = excluded_files st →
    registry_step lib batch_ok st st'
| rs_exclude f r :
    first_pending (file_status st) = Some f →
    Dict.get f (file_status st) = Some r →
    is_pending r = true →
    file_status st' = Dict.set f (set_excluded true r) (file_status st) →
    decrypted_files st' = decrypted_files st →
    excluded_files st' = excluded_files st ++ [f] →
    registry_step lib batch_ok st st'
| rs_ingest uploaded_files :
    uploaded_files ≠ [] →
    batch_ok uploaded_files →
    file_status st' = ingested_status lib uploaded_files [] →
    decrypted_files st' = ingested_names lib uploaded_files →
    excluded_files st' = [] →
    registry_step lib batch_ok st st'.

(** A library for the examples: a file is protected when its first byte
    is 1; PDF files open with "x", office files with "y". *)
Definition example_library : Library :=
  {| PdfReader_is_encrypted := λ b,
       match b with [] => None | x :: _ => Some (Byte.eqb x Byte.x01) end;
     PdfReader_decrypt := λ _ p, if decide (p = "x") then Some 1%Z else Some 0%Z;
     OfficeFile_is_encrypted := λ b,
       match b with [] => None | x :: _ => Some (Byte.eqb x Byte.x01) end;
     OfficeFile_decrypt := λ _ p,
       if decide (p = "y") then Some [Byte.x02] else None |}.

Definition example_a : UploadedFile := {| name := "a.pdf"; data := [Byte.x00] |}.
Definition example_b : UploadedFile := {| name := "b.docx"; data := [Byte.x01] |}.
Definition example_c : UploadedFile := {| name := "c.pdf"; data := [Byte.x01] |}.

(** A second upload under the name of [example_a], with other bytes. *)
Definition example_a_again : UploadedFile :=
  {| name := "a.pdf"; data := [Byte.x00; Byte.x02] |}.

Definition example_batch : list UploadedFile :=
  [example_a; example_b; example_c].

(** The state after the run button was pressed on [example_batch]: the
    dialog asks for the password of b.docx. *)
Definition example_state : SessionState :=
  (step example_library (Run example_batch) initial_state).2.

(** The same with a password typed into the dialog. *)
Definition example_typed (password : string) : SessionState :=
  (step example_library (TypePassword password) example_state).2.

(** ** What the script shows

    The elements the dialog and the end of the script put on the page,
    in the order of the calls. *)
Inductive element :=
| Markdown (body : string)
| ErrorBox (body : string)
| TextInput (label key value : string)
| Button (label key : string) (on_click : event)
| Success (body : string)
| Info (body : string)
| Write (body : string).

(** The outcome of a rendering function: the elements it shows, unless it
    calls [st.rerun()], which abandons them and runs the script again. *)
Inductive rendering :=
| Rerun
| Rendered (elements : list element).

Definition msg_dialog_heading (current_file : string) : string :=
  "### ファイル '" +:+ current_file
  +:+ "' は暗号化されています。パスワードを入力してください。".

Definition msg_all_done : string :=
  "すべてのファイルの処理が完了しました。".

Definition msg_decrypted_heading : string :=
  "### 読み取ることができたファイルの名前:".

Definition msg_none_decrypted : string :=
  "読み取ることができたファイルはありませんでした。".

Definition msg_excluded_heading : string :=
  "### 読み取ることができなかったファイルの名前:".

(** The elements of the dialog for [current_file]. The text input shows
    the value stored under its key. *)
Definition dialog_elements (current_file : string) (st : SessionState)
  : list element :=
  [Markdown (msg_dialog_heading current_file)] ++
  (if truthy (error_message st) then [ErrorBox (error_message st)] else []) ++
  [TextInput "パスワード" "password_input" (password_input st);
   Button "Submit" "submit_password" Submit;
   Button "Cancel" "cancel_password" Cancel].

Definition password_dialog : M rendering :=
  do current_file <- get_current_file;
  match current_file with
  | Some current_file =>
      if negb (truthy current_file) then ret Rerun
      else do st <- gets id; ret (Rendered (dialog_elements current_file st))
  | None => ret Rerun
  end.

(** The report at the end of a run. *)
Definition report_elements (st : SessionState) : list element :=
  [Success msg_all_done] ++
  (match decrypted_files st with
   | _ :: _ => Markdown msg_decrypted_heading :: (Write <$> decrypted_files st)
   | [] => [Info msg_none_decrypted]
   end) ++
  (match excluded_files st with
   | _ :: _ => Markdown msg_excluded_heading :: (Write <$> excluded_files st)
   | [] => []
   end).

(** The end of the script, with what it shows. *)
Definition script_tail_view : M rendering :=
  do processing <- gets processing;
  if processing then
    do current_file <- get_current_file;
    if truthy_opt current_file then password_dialog
    else
      modify (with_processing false);;
      do st <- gets id;
      ret (Rendered (report_elements st))
  else ret (Rendered []).

(** An event with what the end of the script shows after it. *)
Definition event_view (lib : Library) (e : event) : M rendering :=
  match e with
  | Run uploaded_files => run_button lib uploaded_files;; script_tail_view
  | TypePassword password =>
      modify (with_password_input password);; script_tail_view
  | Submit => handle_submit lib;; script_tail_view
  | Cancel => handle_cancel;; script_tail_view
  end.

(** The names a list of elements writes out. *)
Definition written_names (elements : list element) : list string :=
  omap (λ el, match el with Write body => Some body | _ => None end) elements.

(** The error boxes of a list of elements. *)
Definition error_boxes (elements : list element) : list string :=
  omap (λ el, match el with ErrorBox body => Some body | _ => None end)
    elements.

(** ** Vocabulary of the further properties *)

(** The names of the pending records in dictionary order: the list
    [encrypted_files] of [get_current_file]. *)
Definition pending_files (d : list (string * FileStatus)) : list string :=
  (filter (λ fr, is_pending fr.2) d).*1.

(** The session state after the callback of an event, before the script
    runs again, written as a function of the state before. *)
Definition callback_state (lib : Library) (e : event) (st : SessionState)
  : SessionState :=
  match e with
  | Run [] => st
  | Run uploaded_files => ingested_state lib uploaded_files
  | TypePassword password => with_password_input password st
  | Submit =>
      match first_pending (file_status st) with
      | Some f =>
          match Dict.get f (file_status st) with
          | Some r =>
              if negb (truthy f) then st
              else if truthy (password_input st) then
                match attempt lib r (password_input st) with
                | Some r' =>
                    with_password_input ""
                      (with_error_message ""
                         (with_decrypted_files (decrypted_files st ++ [f])
                            (with_file_status
                               (Dict.set f r' (file_status st)) st)))
                | None => with_error_message msg_password_incorrect st
                end
              else with_error_message msg_password_required st
          | None => st
          end
      | None => st
      end
  | Cancel =>
      match first_pending (file_status st) with
      | Some f =>
          match Dict.get f (file_status st) with
          | Some r =>
              if negb (truthy f) then st
              else
                with_password_input ""
                  (with_error_message (msg_cancelled f)
                     (with_excluded_files (excluded_files st ++ [f])
                        (with_file_status
                           (Dict.set f (set_excluded true r) (file_status st))
                           st)))
          | None => st
          end
      | None => st
      end
  end.

(** The session state after the tail of the script. *)
Definition tail_state (st : SessionState) : SessionState :=
  if processing st && negb (truthy_opt (first_pending (file_status st)))
  then with_processing false st else st.

(** The session state after a sequence of events. *)
Definition run_events (lib : Library) (events : list event)
  (st : SessionState) : SessionState :=
  foldl (λ st e, (step lib e st).2) st events.

(** The record [r] was opened by [password]: the helper of its format
    succeeds on the bytes of the record, and the record holds what the
    callback stores on success. *)
Definition opened_by (lib : Library) (r : FileStatus) (password : string)
  : Prop :=
  if decide (extension r = "pdf") then
    decrypt_pdf lib (file_bytes r) password = true ∧ content r = None
  else
    is_Some (content r) ∧
    decrypt_office lib (file_bytes r) password = content r.

(** What holds of the record stored under the name [f]. *)
Record record_ok (lib : Library) (f : string) (r : FileStatus) : Prop := {
  ok_extension : extension r = extension_of f;
  ok_error : error r = None;
  ok_detected :
    encrypted r = detected_encrypted lib {| name := f; data := file_bytes r |};
  ok_plain :
    encrypted r = false →
    decrypted r = true ∧ excluded r = false ∧ content r = None;
  ok_exclusive : decrypted r = true → excluded r = true → False;
  ok_unopened : decrypted r = false → content r = None;
  ok_opened :
    encrypted r = true → decrypted r = true →
    ∃ password, truthy password = true ∧ opened_by lib r password;
}.

(** A password attempt that does not decrypt the record [r]: nothing
    typed, or the helper of the format fails. *)
Definition fails_on (lib : Library) (r : FileStatus) (password : string)
  : Prop :=
  truthy password = false ∨ attempt lib r password = None.

(** The events of typing each password of the list and pressing Submit. *)
Definition attempts (passwords : list string) : list event :=
  passwords ≫= λ password, [TypePassword password; Submit].

(** The string has a dot. *)
Fixpoint contains_dot (s : string) : bool :=
  match s with
  | "" => false
  | String c s' => if decide (c = "."%char) then true else contains_dot s'
  end.

(** The character [c] is [t], or the capital of [t] when [t] is one of
    the letters a to z. *)
Definition case_variant_char (c t : ascii) : bool :=
  bool_decide (c = t) ||
  ((97 <=? N_of_ascii t) && (N_of_ascii t <=? 122) &&
   (N_of_ascii c + 32 =? N_of_ascii t))%N.

(** The string [s] is [t] up to the case of its letters a to z. *)
Fixpoint case_variant (s t : string) : bool :=
  match s, t with
  | "", "" => true
  | String c s', String d t' => case_variant_char c d && case_variant s' t'
  | _, _ => false
  end.

(** The file name is [ext], or ends in a dot followed by [ext]. *)
Definition ends_in (file_name ext : string) : Prop :=
  file_name = ext ∨ ∃ base, file_name = base +:+ "." +:+ ext.

(** The example after the password of b.docx was typed and submitted. *)
Definition example_opened : SessionState :=
  run_events example_library [TypePassword "y"; Submit] example_state.

(** The record of b.docx in [example_opened]. *)
Definition example_opened_record : FileStatus :=
  set_decrypted true
    (set_content (Some [Byte.x02]) (ingested_record example_library example_b)).

(** The example after both dialogs were cancelled: the run is over. *)
Definition example_finished : SessionState :=
  run_events example_library [Cancel; Cancel] example_state.

(** A state no event sequence produces: a pending record under the empty
    name, which [if not current_file] takes for no file at all. *)
Definition unnamed_state : SessionState :=
  {| file_status :=
       [("", {| extension := ""; encrypted := true; decrypted := false;
                excluded := false; content := None; file_bytes := [];
                error := None |})];
     processing := true; decrypted_files := []; excluded_files := [];
     error_message := ""; password_input := "x" |}.

(** ** Dictionaries *)

Section dict_facts.
Context {V : Type}.
Implicit Types (d : list (string * V)) (k : string) (v : V).

Lemma get_set_eq k v d : Dict.get k (Dict.set k v d) = Some v.
Proof.
  induction d as [|[k' v'] d IH]; simpl.
  - by rewrite decide_True.
  - destruct (decide (k = k')) as [->|Hne]; simpl.
    + by rewrite decide_True.
    + by rewrite decide_False.
Qed.

Lemma get_set_ne k k' v d :
  k ≠ k' → Dict.get k' (Dict.set k v d) = Dict.get k' d.
Proof.
  intros Hne. induction d as [|[k0 v0] d IH]; simpl.
  - by rewrite decide_False.
  - destruct (decide (k = k0)) as [->|Hne0]; simpl.
    + by rewrite !decide_False.
    + by rewrite IH.
Qed.

Lemma set_set k v1 v2 d :
  Dict.set k v2 (Dict.set k v1 d) = Dict.set k v2 d.
Proof.
  induction d as [|[k0 v0] d IH]; simpl.
  - by rewrite decide_True.
  - destruct (decide (k = k0)) as [->|Hne]; simpl.
    + by rewrite decide_True.
    + by rewrite decide_False, IH.
Qed.

Lemma get_None k d : Dict.get k d = None ↔ k ∉ Dict.keys d.
Proof.
  unfold Dict.keys. induction d as [|[k0 v0] d IH]; simpl.
  - split; [intros _; apply not_elem_of_nil | done].
  - rewrite not_elem_of_cons. destruct (decide (k = k0)) as [->|Hne].
    + split; [done | by intros [? _]].
    + rewrite IH. split; [done | by intros [_ ?]].
Qed.

Lemma get_Some_elem_of k v d : Dict.get k d = Some v → (k, v) ∈ d.
Proof.
  induction d as [|[k0 v0] d IH]; simpl; [done|].
  destruct (decide (k = k0)) as [->|Hne].
  - intros [= ->]. apply elem_of_cons; by left.
  - intros H. apply elem_of_cons; right; auto.
Qed.

Lemma elem_of_get k v d :
  NoDup (Dict.keys d) → (k, v) ∈ d → Dict.get k d = Some v.
Proof.
  unfold Dict.keys. induction d as [|[k0 v0] d IH]; simpl.
  - intros _ H. by apply elem_of_nil in H.
  - intros [Hk0 Hd]%NoDup_cons [[= -> ->]|Hin]%elem_of_cons.
    + by rewrite decide_True.
    + rewrite decide_False; [auto|].
      intros ->. apply Hk0. apply list_elem_of_fmap. by exists (k0, v).
Qed.

Lemma keys_set_present k v d :
  k ∈ Dict.keys d → Dict.keys (Dict.set k v d) = Dict.keys d.
Proof.
  unfold Dict.keys. induction d as [|[k0 v0] d IH]; simpl.
  - intros H. by apply elem_of_nil in H.
  - intros Hin. destruct (decide (k = k0)) as [->|Hne]; simpl; [done|].
    f_equal. apply IH. apply elem_of_cons in Hin as [?|?]; done.
Qed.

Lemma set_absent k v d : k ∉ Dict.keys d → Dict.set k v d = d ++ [(k, v)].
Proof.
  unfold Dict.keys. induction d as [|[k0 v0] d IH]; simpl; [done|].
  intros [Hne Hd]%not_elem_of_cons.
  rewrite decide_False by done. by rewrite IH.
Qed.

Lemma keys_set k v d :
  Dict.keys (Dict.set k v d) =
  if decide (k ∈ Dict.keys d) then Dict.keys d else Dict.keys d ++ [k].
Proof.
  case_decide as Hin.
  - by apply keys_set_present.
  - rewrite set_absent by done. unfold Dict.keys. by rewrite fmap_app.
Qed.

Lemma NoDup_keys_set k v d :
  NoDup (Dict.keys d) → NoDup (Dict.keys (Dict.set k v d)).
Proof.
  intros Hd. rewrite keys_set. case_decide as Hin; [done|].
  apply NoDup_app. split_and!; [done| |apply NoDup_singleton].
  intros x Hx ->%list_elem_of_singleton. done.
Qed.

Lemma get_is_Some k d : is_Some (Dict.get k d) ↔ k ∈ Dict.keys d.
Proof.
  rewrite <-not_eq_None_Some, get_None.
  destruct (decide (k ∈ Dict.keys d)); naive_solver.
Qed.

End dict_facts.

(** ** What the functions of the script compute *)

Section effects.
Context (lib : Library).
Implicit Types (st : SessionState) (f : string) (r : FileStatus).

Lemma get_current_file_eq st :
  get_current_file st = (Ok (first_pending (file_status st)), st).
Proof.
  unfold get_current_file, first_pending, bind, gets; simpl.
  by destruct ((filter _ (file_status st)).*1).
Qed.

Lemma first_pending_elem_of (d : list (string * FileStatus)) f :
  first_pending d = Some f → ∃ r, (f, r) ∈ d ∧ is_pending r = true.
Proof.
  unfold first_pending. intros Hhd.
  assert (f ∈ (filter (λ fr, is_pending fr.2) d).*1) as Hin.
  { destruct ((filter _ d).*1) as [|g l]; simplify_eq/=. apply elem_of_cons; by left. }
  apply list_elem_of_fmap in Hin as ([g r] & -> & Hin).
  apply list_elem_of_filter in Hin as [Hp Hin]. simpl in *.
  exists r. split; [done|]. by apply Is_true_true.
Qed.

Lemma first_pending_get st f :
  well_formed st →
  first_pending (file_status st) = Some f →
  f ≠ "" ∧ ∃ r, Dict.get f (file_status st) = Some r ∧ is_pending r = true.
Proof.
  intros [Hkeys Hnamed] (r & Hin & Hp)%first_pending_elem_of.
  apply elem_of_get in Hin; [|done].
  split; [|by exists r].
  apply (Hnamed f r Hin). unfold is_pending in Hp.
  by destruct (encrypted r).
Qed.

Lemma truthy_nonempty (s : string) : s ≠ "" → truthy s = true.
Proof. by destruct s. Qed.

Lemma handle_submit_eq st f r :
  first_pending (file_status st) = Some f →
  f ≠ "" →
  Dict.get f (file_status st) = Some r →
  handle_submit lib st =
  (Ok (),
   if truthy (password_input st) then
     match attempt lib r (password_input st) with
     | Some r' =>
         with_password_input ""
           (with_error_message ""
              (with_decrypted_files (decrypted_files st ++ [f])
                 (with_file_status (Dict.set f r' (file_status st)) st)))
     | None => with_error_message msg_password_incorrect st
     end
   else with_error_message msg_password_required st).
Proof.
  intros Hcur Hf Hget.
  unfold handle_submit, bind at 1. rewrite get_current_file_eq, Hcur.
  rewrite (truthy_nonempty f Hf); simpl.
  unfold bind at 1, gets at 1.
  destruct (truthy (password_input st)) eqn:Hpw; simpl; [|done].
  unfold attempt, bind, get_field, set_field, modify, ret.
  rewrite Hget; simpl. rewrite Hget; simpl.
  destruct (decide (extension r = "pdf")) as [Hpdf|Hoffice].
  - destruct (decrypt_pdf lib (file_bytes r) (password_input st)); [|done].
    by rewrite Hget.
  - destruct (decrypt_office lib (file_bytes r) (password_input st)) as [b|];
      [|done].
    rewrite Hget. simpl. by rewrite get_set_eq, set_set.
Qed.

Lemma handle_submit_idle st :
  truthy_opt (first_pending (file_status st)) = false →
  handle_submit lib st = (Ok (), st).
Proof.
  intros Hcur. unfold handle_submit, bind at 1.
  rewrite get_current_file_eq.
  destruct (first_pending (file_status st)) as [f|]; [|done].
  simpl in Hcur. by rewrite Hcur.
Qed.

Lemma handle_cancel_eq st f r :
  first_pending (file_status st) = Some f →
  f ≠ "" →
  Dict.get f (file_status st) = Some r →
  handle_cancel st =
  (Ok (),
   with_password_input ""
     (with_error_message (msg_cancelled f)
        (with_excluded_files (excluded_files st ++ [f])
           (with_file_status
              (Dict.set f (set_excluded true r) (file_status st)) st)))).
Proof.
  intros Hcur Hf Hget.
  unfold handle_cancel, bind at 1. rewrite get_current_file_eq, Hcur.
  rewrite (truthy_nonempty f Hf); simpl.
  unfold bind, set_field, modify. by rewrite Hget.
Qed.

Lemma handle_cancel_idle st :
  truthy_opt (first_pending (file_status st)) = false →
  handle_cancel st = (Ok (), st).
Proof.
  intros Hcur. unfold handle_cancel, bind at 1.
  rewrite get_current_file_eq.
  destruct (first_pending (file_status st)) as [f|]; [|done].
  simpl in Hcur. by rewrite Hcur.
Qed.

Lemma script_tail_eq st :
  script_tail st =
  (Ok (),
   if processing st && negb (truthy_opt (first_pending (file_status st)))
   then with_processing false st else st).
Proof.
  unfold script_tail, bind at 1, gets.
  destruct (processing st); simpl; [|done].
  unfold bind. rewrite get_current_file_eq.
  by destruct (truthy_opt _).
Qed.

Lemma ingest_file_eq (file : UploadedFile) st :
  ingest_file lib file st =
  (Ok (),
   with_decrypted_files
     (decrypted_files st ++
        if detected_encrypted lib file then [] else [name file])
     (with_file_status
        (Dict.set (name file) (ingested_record lib file) (file_status st))
        st)).
Proof.
  unfold ingest_file, bind, modify, get_field, set_field, ret; simpl.
  rewrite !get_set_eq; simpl. rewrite !get_set_eq, !set_set.
  fold (detected_encrypted lib file).
  destruct (detected_encrypted lib file) eqn:Henc; simpl.
  - unfold with_decrypted_files, with_file_status; simpl.
    rewrite app_nil_r. do 2 f_equal. unfold ingested_record. by rewrite Henc.
  - rewrite get_set_eq, set_set.
    unfold with_decrypted_files, with_file_status; simpl.
    do 2 f_equal. unfold ingested_record. by rewrite Henc.
Qed.

End effects.

(** ** The ingestion loop *)

Section ingestion.
Context (lib : Library).
Implicit Types (st : SessionState) (file : UploadedFile)
  (d : list (string * FileStatus)).

Lemma bind_ok {A B : Type} (m : M A) (k : A → M B) st a st1 :
  m st = (Ok a, st1) → bind m k st = k a st1.
Proof. intros H. unfold bind. by rewrite H. Qed.

Lemma for_each_ingest_eq (files : list UploadedFile) st :
  for_each (ingest_file lib) files st =
  (Ok (),
   with_decrypted_files (decrypted_files st ++ ingested_names lib files)
     (with_file_status (ingested_status lib files (file_status st)) st)).
Proof.
  revert st. induction files as [|file files IH]; intros st.
  - unfold ingested_names, ingested_status; simpl.
    rewrite app_nil_r. by destruct st.
  - simpl. rewrite (bind_ok _ _ _ _ _ (ingest_file_eq lib file st)).
    rewrite IH. unfold ingested_names, ingested_status; simpl.
    rewrite filter_cons.
    destruct (detected_encrypted lib file) eqn:Henc.
    + rewrite decide_False by done. by rewrite app_nil_r.
    + rewrite decide_True by done. rewrite fmap_cons.
      by rewrite <-app_assoc.
Qed.

Lemma run_button_eq (files : list UploadedFile) st :
  files ≠ [] → run_button lib files st = (Ok (), ingested_state lib files).
Proof.
  intros Hne. destruct files as [|file files]; [done|].
  unfold run_button, reset_session.
  unfold bind at 1, bind at 1, modify at 1.
  unfold bind at 1, modify at 1. unfold bind at 1, modify at 1.
  unfold bind at 1, modify at 1. unfold bind at 1, modify at 1.
  unfold modify at 1. by rewrite for_each_ingest_eq.
Qed.

Lemma run_button_empty st : run_button lib [] st = (Ok (), st).
Proof. done. Qed.

Lemma ingested_status_app (l1 l2 : list UploadedFile) d :
  ingested_status lib (l1 ++ l2) d =
  ingested_status lib l2 (ingested_status lib l1 d).
Proof. unfold ingested_status. by rewrite foldl_app. Qed.

Lemma get_ingested_other (files : list UploadedFile) d f :
  f ∉ name <$> files →
  Dict.get f (ingested_status lib files d) = Dict.get f d.
Proof.
  revert d. induction files as [|file files IH]; intros d Hf; [done|].
  rewrite fmap_cons in Hf. apply not_elem_of_cons in Hf as [Hne Hf].
  change (Dict.get f (ingested_status lib files
    (Dict.set (name file) (ingested_record lib file) d)) = Dict.get f d).
  rewrite IH by done. by rewrite get_set_ne.
Qed.

(** The record of a name is the one of its last occurrence. *)
Lemma get_ingested_last (l1 l2 : list UploadedFile) file d :
  name file ∉ name <$> l2 →
  Dict.get (name file) (ingested_status lib (l1 ++ file :: l2) d) =
  Some (ingested_record lib file).
Proof.
  intros Hlast. rewrite ingested_status_app.
  change (Dict.get (name file) (ingested_status lib l2
    (Dict.set (name file) (ingested_record lib file)
       (ingested_status lib l1 d))) = Some (ingested_record lib file)).
  rewrite get_ingested_other by done. apply get_set_eq.
Qed.

Lemma NoDup_keys_ingested (files : list UploadedFile) d :
  NoDup (Dict.keys d) → NoDup (Dict.keys (ingested_status lib files d)).
Proof.
  revert d. induction files as [|file files IH]; intros d Hd; [done|].
  apply IH. by apply NoDup_keys_set.
Qed.

Lemma extension_of_empty : extension_of "" = "".
Proof. done. Qed.

Lemma detected_encrypted_named file :
  detected_encrypted lib file = true → name file ≠ "".
Proof.
  unfold detected_encrypted. intros Henc Hname. rewrite Hname in Henc.
  rewrite extension_of_empty in Henc.
  rewrite decide_False in Henc by done.
  rewrite decide_False in Henc; [done|].
  rewrite !elem_of_cons, elem_of_nil. naive_solver.
Qed.

Lemma get_ingested_inv (files : list UploadedFile) d f r :
  Dict.get f (ingested_status lib files d) = Some r →
  Dict.get f d = Some r ∨
  ∃ file, file ∈ files ∧ name file = f ∧ r = ingested_record lib file.
Proof.
  revert d. induction files as [|file files IH]; intros d Hget; [by left|].
  apply IH in Hget as [Hget|(file' & Hin & Hname & Hr)].
  - destruct (decide (name file = f)) as [<-|Hne].
    + rewrite get_set_eq in Hget. right. exists file.
      split; [apply elem_of_cons; by left|]. by simplify_eq.
    + rewrite get_set_ne in Hget by done. by left.
  - right. exists file'. split; [apply elem_of_cons; by right|done].
Qed.

Lemma ingested_state_well_formed (files : list UploadedFile) :
  well_formed (ingested_state lib files).
Proof.
  split; simpl.
  - apply NoDup_keys_ingested. apply NoDup_nil_2.
  - intros f r [Hget|(file & _ & <- & ->)]%get_ingested_inv; [done|].
    simpl. apply detected_encrypted_named.
Qed.

End ingestion.

(** ** One event *)

Section steps.
Context (lib : Library).
Implicit Types (st : SessionState) (f : string) (r : FileStatus) (e : event).

Lemma attempt_Some r password r' :
  attempt lib r password = Some r' →
  extension r' = extension r ∧ encrypted r' = encrypted r ∧
  decrypted r' = true ∧ excluded r' = excluded r ∧
  file_bytes r' = file_bytes r ∧ error r' = error r.
Proof.
  unfold attempt. intros H.
  destruct (decide (extension r = "pdf")).
  - destruct (decrypt_pdf _ _ _); by simplify_eq.
  - destruct (decrypt_office _ _ _); by simplify_eq.
Qed.

Lemma is_pending_true r :
  is_pending r = true ↔
  encrypted r = true ∧ decrypted r = false ∧ excluded r = false.
Proof.
  unfold is_pending.
  destruct (encrypted r), (decrypted r), (excluded r); simpl;
    intuition congruence.
Qed.

Lemma script_tail_ok st : (script_tail st).1 = Ok ().
Proof. by rewrite script_tail_eq. Qed.

Lemma script_tail_fields st :
  file_status (script_tail st).2 = file_status st ∧
  decrypted_files (script_tail st).2 = decrypted_files st ∧
  excluded_files (script_tail st).2 = excluded_files st ∧
  error_message (script_tail st).2 = error_message st ∧
  password_input (script_tail st).2 = password_input st.
Proof. rewrite script_tail_eq; simpl. by destruct (_ && _). Qed.

(** Every event ends without an exception, and moves the registry by
    one of the four moves. *)
Lemma step_registry (allowed : event → Prop) e st :
  well_formed st →
  allowed e →
  (step lib e st).1 = Ok () ∧
  registry_step lib (λ files, allowed (Run files)) st (step lib e st).2.
Proof.
  intros Hwf He. destruct e as [files|password| |]; unfold step.
  - destruct files as [|file files].
    + rewrite (bind_ok _ _ _ _ _ (run_button_empty lib st)).
      split; [apply script_tail_ok|].
      destruct (script_tail_fields st) as (? & ? & ? & _).
      by apply rs_same.
    + rewrite (bind_ok _ _ _ () (ingested_state lib (file :: files)))
        by by apply run_button_eq.
      split; [apply script_tail_ok|].
      destruct (script_tail_fields (ingested_state lib (file :: files)))
        as (? & ? & ? & _).
      by apply (rs_ingest _ _ _ _ (file :: files)).
  - unfold bind, modify. split; [apply script_tail_ok|].
    destruct (script_tail_fields (with_password_input password st))
      as (? & ? & ? & _).
    by apply rs_same.
  - destruct (first_pending (file_status st)) as [f|] eqn:Hcur.
    + destruct (first_pending_get st f Hwf Hcur) as (Hf & r & Hget & Hp).
      rewrite (bind_ok _ _ _ _ _ (handle_submit_eq lib st f r Hcur Hf Hget)).
      split; [apply script_tail_ok|].
      match goal with |- context [script_tail ?s] =>
        destruct (script_tail_fields s) as (Hd & Hdec & Hexc & _) end.
      destruct (truthy (password_input st)).
      * destruct (attempt lib r (password_input st)) as [r'|] eqn:Hatt.
        -- by apply (rs_decrypt _ _ _ _ f r r').
        -- by apply rs_same.
      * by apply rs_same.
    + rewrite (bind_ok _ _ _ () st)
        by (apply handle_submit_idle; by rewrite Hcur).
      split; [apply script_tail_ok|].
      destruct (script_tail_fields st) as (? & ? & ? & _).
      by apply rs_same.
  - destruct (first_pending (file_status st)) as [f|] eqn:Hcur.
    + destruct (first_pending_get st f Hwf Hcur) as (Hf & r & Hget & Hp).
      rewrite (bind_ok _ _ _ _ _ (handle_cancel_eq st f r Hcur Hf Hget)).
      split; [apply script_tail_ok|].
      match goal with |- context [script_tail ?s] =>
        destruct (script_tail_fields s) as (Hd & Hdec & Hexc & _) end.
      by apply (rs_exclude _ _ _ _ f r).
    + rewrite (bind_ok _ _ _ () st)
        by (apply handle_cancel_idle; by rewrite Hcur).
      split; [apply script_tail_ok|].
      destruct (script_tail_fields st) as (? & ? & ? & _).
      by apply rs_same.
Qed.

Lemma registry_step_well_formed batch_ok st st' :
  well_formed st → registry_step lib batch_ok st st' → well_formed st'.
Proof.
  intros [Hkeys Hnamed]
    [Hd _ _|f r r' _ Hget _ Hatt Hd _ _|f r _ Hget _ Hd _ _|files _ _ Hd _ _];
    split; rewrite Hd.
  - done.
  - done.
  - by apply NoDup_keys_set.
  - intros g rg Hg Henc. destruct (decide (f = g)) as [<-|Hne].
    + rewrite get_set_eq in Hg. simplify_eq.
      apply attempt_Some in Hatt as (_ & Henc' & _).
      apply (Hnamed f r Hget). congruence.
    + rewrite get_set_ne in Hg by done. by apply (Hnamed g rg).
  - by apply NoDup_keys_set.
  - intros g rg Hg Henc. destruct (decide (f = g)) as [<-|Hne].
    + rewrite get_set_eq in Hg. simplify_eq. by apply (Hnamed f r Hget).
    + rewrite get_set_ne in Hg by done. by apply (Hnamed g rg).
  - apply (ingested_state_well_formed lib files).
  - apply (ingested_state_well_formed lib files).
Qed.

Lemma initial_well_formed : well_formed initial_state.
Proof. split; simpl; [apply NoDup_nil_2 | done]. Qed.

Lemma reachable_well_formed allowed st :
  reachable_by lib allowed st → well_formed st.
Proof.
  induction 1 as [|st e _ IH He]; [apply initial_well_formed|].
  destruct (step_registry allowed e st IH He) as [_ Hstep].
  by eapply registry_step_well_formed.
Qed.

Lemma in_run_well_formed files st : in_run lib files st → well_formed st.
Proof.
  induction 1 as [st Hne|st e _ IH He].
  - unfold step. rewrite (bind_ok _ _ _ () (ingested_state lib files))
      by by apply run_button_eq.
    destruct (script_tail_fields (ingested_state lib files)) as (Hd & _).
    destruct (ingested_state_well_formed lib files) as [Hkeys Hnamed].
    split; by rewrite Hd.
  - destruct (step_registry (λ e, ¬ starts_run e) e st IH He) as [_ Hstep].
    by eapply registry_step_well_formed.
Qed.

End steps.

(** ** The two name lists *)

Section accounting.
Context (lib : Library).
Implicit Types (st : SessionState) (f : string) (r : FileStatus) (e : event).

Lemma get_ingested_unique (files : list UploadedFile) file d :
  NoDup (name <$> files) →
  file ∈ files →
  Dict.get (name file) (ingested_status lib files d) =
  Some (ingested_record lib file).
Proof.
  intros Hnd (l1 & l2 & ->)%list_elem_of_split.
  apply get_ingested_last.
  rewrite fmap_app, fmap_cons in Hnd.
  apply NoDup_app in Hnd as (_ & _ & Hnd).
  by apply NoDup_cons in Hnd as [? _].
Qed.

Lemma elem_of_ingested_names (files : list UploadedFile) f :
  f ∈ ingested_names lib files ↔
  ∃ file, file ∈ files ∧ name file = f ∧ detected_encrypted lib file = false.
Proof.
  unfold ingested_names. rewrite list_elem_of_fmap. split.
  - intros (file & -> & [Henc Hin]%list_elem_of_filter). by exists file.
  - intros (file & Hin & <- & Henc). exists file.
    split; [done|]. by apply list_elem_of_filter.
Qed.

Lemma ingested_state_accounted (files : list UploadedFile) :
  NoDup (name <$> files) → accounted (ingested_state lib files).
Proof.
  intros Hnd. split; simpl.
  - intros f. rewrite elem_of_ingested_names. split.
    + intros (file & Hin & <- & Henc). exists (ingested_record lib file).
      split; [by apply get_ingested_unique|]. simpl. by rewrite Henc.
    + intros (r & [Hget|(file & Hin & Hname & ->)]%get_ingested_inv & Hdec);
        [done|].
      exists file. split_and!; [done..|].
      simpl in Hdec. by apply negb_true_iff.
  - intros f. split; [by intros ?%elem_of_nil|].
    by intros (r & [Hget|(file & Hin & Hname & ->)]%get_ingested_inv & Hexc).
  - by intros f r [Hget|(file & Hin & Hname & ->)]%get_ingested_inv.
Qed.

Lemma accounted_same st st' :
  file_status st' = file_status st →
  decrypted_files st' = decrypted_files st →
  excluded_files st' = excluded_files st →
  accounted st → accounted st'.
Proof.
  intros Hd Hdec Hexc [Ha Hb Hc].
  split; rewrite ?Hd, ?Hdec, ?Hexc; done.
Qed.

Lemma registry_step_accounted st st' :
  well_formed st →
  accounted st →
  registry_step lib (λ files, NoDup (name <$> files)) st st' →
  accounted st'.
Proof.
  intros Hwf Hacc
    [Hd Hdec Hexc|f r r' _ Hget Hp Hatt Hd Hdec Hexc
    |f r _ Hget Hp Hd Hdec Hexc|files _ Hnd Hd Hdec Hexc].
  - by apply (accounted_same st).
  - destruct Hacc as [Ha Hb Hc].
    apply is_pending_true in Hp as (_ & Hrd & Hre).
    apply attempt_Some in Hatt as (_ & _ & Hd' & He' & _).
    split; rewrite ?Hd, ?Hdec, ?Hexc.
    + intros g. rewrite elem_of_app, list_elem_of_singleton.
      destruct (decide (f = g)) as [<-|Hne].
      * rewrite get_set_eq. split; [|by right]. intros _. by exists r'.
      * rewrite get_set_ne by done. rewrite Ha.
        split; [intros [?|?]; [done|congruence]|by left].
    + intros g. destruct (decide (f = g)) as [<-|Hne].
      * rewrite get_set_eq, Hb. split.
        -- intros (r0 & Hget0 & He0). congruence.
        -- intros (r0 & [= <-] & He0). congruence.
      * rewrite get_set_ne by done. apply Hb.
    + intros g rg. destruct (decide (f = g)) as [<-|Hne].
      * rewrite get_set_eq. intros [= <-]. congruence.
      * rewrite get_set_ne by done. apply Hc.
  - destruct Hacc as [Ha Hb Hc].
    apply is_pending_true in Hp as (_ & Hrd & Hre).
    split; rewrite ?Hd, ?Hdec, ?Hexc.
    + intros g. destruct (decide (f = g)) as [<-|Hne].
      * rewrite get_set_eq, Ha. split.
        -- intros (r0 & Hget0 & He0). congruence.
        -- intros (r0 & [= <-] & He0). simpl in He0. congruence.
      * rewrite get_set_ne by done. apply Ha.
    + intros g. rewrite elem_of_app, list_elem_of_singleton.
      destruct (decide (f = g)) as [<-|Hne].
      * rewrite get_set_eq. split; [|by right]. intros _.
        by exists (set_excluded true r).
      * rewrite get_set_ne by done. rewrite Hb.
        split; [intros [?|?]; [done|congruence]|by left].
    + intros g rg. destruct (decide (f = g)) as [<-|Hne].
      * rewrite get_set_eq. intros [= <-]. simpl. congruence.
      * rewrite get_set_ne by done. apply Hc.
  - apply (accounted_same (ingested_state lib files)); [done..|].
    by apply ingested_state_accounted.
Qed.

Lemma initial_accounted : accounted initial_state.
Proof.
  split; simpl; [| |done]; intros f;
    (split; [by intros ?%elem_of_nil | by intros (? & ? & ?)]).
Qed.

Lemma reachable_accounted st :
  reachable_by lib unique_names st → accounted st.
Proof.
  induction 1 as [|st e Hreach IH He]; [apply initial_accounted|].
  pose proof (reachable_well_formed lib _ _ Hreach) as Hwf.
  destruct (step_registry lib unique_names e st Hwf He) as [_ Hstep].
  by apply (registry_step_accounted st).
Qed.

(** Within a run both lists are only extended at the end. *)
Lemma step_extends e st :
  well_formed st →
  ¬ starts_run e →
  decrypted_files st `prefix_of` decrypted_files (step lib e st).2 ∧
  excluded_files st `prefix_of` excluded_files (step lib e st).2.
Proof.
  intros Hwf He.
  destruct (step_registry lib (λ e, ¬ starts_run e) e st Hwf He)
    as [_ [_ Hdec Hexc|f r r' _ _ _ _ _ Hdec Hexc
          |f r _ _ _ _ Hdec Hexc|files Hne Hrun _ _ _]].
  - by rewrite Hdec, Hexc.
  - rewrite Hdec, Hexc. split; [apply prefix_app_r|]; done.
  - rewrite Hdec, Hexc. split; [|apply prefix_app_r]; done.
  - destruct files; [done|]. by destruct Hrun.
Qed.

(** C1. In every state the script reaches when the names of each batch
    are pairwise different, a name is in the decrypted list or in the
    excluded list exactly when the record stored under it is resolved
    (decrypted or excluded), no name is in both lists, and an event that
    does not start a new run keeps every name of the two lists. *)
Theorem resolved_names_partition st :
  reachable_by lib unique_names st →
  (∀ f, f ∈ decrypted_files st ++ excluded_files st ↔
        resolved_in (file_status st) f = true) ∧
  (∀ f, f ∈ decrypted_files st → f ∈ excluded_files st → False) ∧
  (∀ e, ¬ starts_run e →
        decrypted_files st ++ excluded_files st ⊆
        decrypted_files (step lib e st).2 ++ excluded_files (step lib e st).2).
Proof.
  intros Hreach.
  pose proof (reachable_well_formed lib _ _ Hreach) as Hwf.
  destruct (reachable_accounted st Hreach) as [Ha Hb Hc].
  split_and!.
  - intros f. rewrite elem_of_app, Ha, Hb. unfold resolved_in.
    destruct (Dict.get f (file_status st)) as [r|].
    + rewrite orb_true_iff. split.
      * intros [(r0 & [= <-] & ?)|(r0 & [= <-] & ?)]; [by left|by right].
      * intros [?|?]; [left|right]; by exists r.
    + split; [intros [(? & ? & _)|(? & ? & _)]; done | done].
  - intros f (r & Hget & Hdec)%Ha (r' & Hget' & Hexc)%Hb.
    simplify_eq. by apply (Hc f r).
  - intros e He f.
    destruct (step_extends e st Hwf He) as [[l1 ->] [l2 ->]].
    rewrite !elem_of_app. tauto.
Qed.

End accounting.

(** The union of the two lists on the example batch, after the run
    button. *)
Lemma resolved_names_partition_witness :
  reachable_by example_library unique_names example_state ∧
  (∀ f, f ∈ decrypted_files example_state ++ excluded_files example_state ↔
        resolved_in (file_status example_state) f = true) ∧
  (∀ f, f ∈ decrypted_files example_state →
        f ∈ excluded_files example_state → False) ∧
  (∀ e, ¬ starts_run e →
        decrypted_files example_state ++ excluded_files example_state ⊆
        decrypted_files (step example_library e example_state).2 ++
        excluded_files (step example_library e example_state).2).
Proof.
  assert (reachable_by example_library unique_names example_state) as Hreach.
  { apply (reach_step _ _ initial_state (Run example_batch)).
    - apply reach_init.
    - simpl. by apply (bool_decide_unpack _). }
  split; [exact Hreach|].
  exact (resolved_names_partition example_library example_state Hreach).
Defined.

(** ** Submission order *)

Section order.
Context (lib : Library).
Implicit Types (st : SessionState) (f : string) (r : FileStatus) (e : event)
  (d : list (string * FileStatus)).

Lemma head_filter_list_find {A : Type} (P : A → Prop)
  `{!∀ x, Decision (P x)} (l : list A) :
  head (filter P l) = snd <$> list_find P l.
Proof.
  induction l as [|x l IH]; [done|].
  rewrite filter_cons. csimpl. case_decide; [done|].
  rewrite IH. by destruct (list_find P l) as [[i y]|].
Qed.

(** The head of a filtered list is the element of lowest index that
    passes the filter. *)
Lemma head_filter_lowest {A : Type} (P : A → Prop)
  `{!∀ x, Decision (P x)} (l : list A) (x : A) :
  head (filter P l) = Some x ↔
  ∃ i, l !! i = Some x ∧ P x ∧ ∀ j y, j < i → l !! j = Some y → ¬ P y.
Proof.
  rewrite head_filter_list_find. split.
  - intros ([i y] & Hfind & ->)%fmap_Some.
    apply list_find_Some in Hfind as (Hi & HP & Hlow).
    exists i. split_and!; [done..|]. intros j z Hj Hz. by apply (Hlow j z).
  - intros (i & Hi & HP & Hlow). apply fmap_Some. exists (i, x).
    split; [|done]. apply list_find_Some. split_and!; [done..|].
    intros j z Hz Hj. by apply (Hlow j z).
Qed.

Lemma head_filter_none {A : Type} (P : A → Prop)
  `{!∀ x, Decision (P x)} (l : list A) :
  head (filter P l) = None ↔ ∀ x, x ∈ l → ¬ P x.
Proof.
  rewrite head_None. split.
  - intros Hnil x Hx HP. by apply (filter_nil_not_elem_of P l x).
  - intros Hall. induction l as [|x l IH]; [done|].
    rewrite filter_cons_False by (apply Hall, elem_of_cons; by left).
    apply IH. intros y Hy. apply Hall, elem_of_cons. by right.
Qed.

Lemma filter_first_occurrences (P : string → Prop)
  `{!∀ x, Decision (P x)} (l : list string) :
  head (filter P (first_occurrences l)) = head (filter P l).
Proof.
  induction l as [|x l IH]; [done|]. simpl.
  rewrite !filter_cons. case_decide as HP; [done|].
  rewrite <-IH. f_equal.
  rewrite list_filter_filter. apply list_filter_iff.
  intros y. split; [by intros [? _]|]. intros Hy. split; [done|].
  by intros ->.
Qed.

Lemma filter_all {A : Type} (P : A → Prop) `{!∀ x, Decision (P x)}
  (l : list A) : (∀ x, P x) → filter P l = l.
Proof.
  intros HP. induction l as [|x l IH]; [done|].
  by rewrite filter_cons_True, IH.
Qed.

Lemma keys_ingested (files : list UploadedFile) d :
  Dict.keys (ingested_status lib files d) =
  Dict.keys d ++
  filter (λ f, f ∉ Dict.keys d) (first_occurrences (name <$> files)).
Proof.
  revert d. induction files as [|file files IH]; intros d.
  - simpl. by rewrite app_nil_r.
  - change (Dict.keys (ingested_status lib files
      (Dict.set (name file) (ingested_record lib file) d)) =
      Dict.keys d ++ filter (λ f, f ∉ Dict.keys d)
        (name file :: filter (λ y, y ≠ name file)
           (first_occurrences (name <$> files)))).
    rewrite IH, keys_set. case_decide as Hin.
    + rewrite filter_cons_False by (by intros ?). f_equal.
      rewrite list_filter_filter. apply list_filter_iff.
      intros y. split; [|by intros [? _]]. intros Hy. split; [done|].
      by intros ->.
    + rewrite filter_cons_True by done. rewrite <-app_assoc. simpl.
      do 2 f_equal. rewrite list_filter_filter. apply list_filter_iff.
      intros y. rewrite not_elem_of_app, list_elem_of_singleton. tauto.
Qed.

Lemma keys_ingested_state (files : list UploadedFile) :
  Dict.keys (file_status (ingested_state lib files)) =
  first_occurrences (name <$> files).
Proof.
  simpl. rewrite keys_ingested. simpl. apply filter_all.
  intros f. apply not_elem_of_nil.
Qed.

(** The keys of the dictionary stay in place during a run. *)
Lemma registry_step_keys st st' :
  registry_step lib (λ _, False) st st' →
  Dict.keys (file_status st') = Dict.keys (file_status st).
Proof.
  intros [Hd _ _|f r r' _ Hget _ _ Hd _ _|f r _ Hget _ Hd _ _|files _ [] _ _ _];
    rewrite Hd; [done| |];
    apply keys_set_present, get_is_Some; by rewrite Hget.
Qed.

Lemma in_run_keys (files : list UploadedFile) st :
  in_run lib files st →
  Dict.keys (file_status st) = first_occurrences (name <$> files).
Proof.
  induction 1 as [st Hne|st e Hrun IH He].
  - unfold step. rewrite (bind_ok _ _ _ () (ingested_state lib files))
      by by apply run_button_eq.
    destruct (script_tail_fields (ingested_state lib files)) as (-> & _).
    apply keys_ingested_state.
  - rewrite <-IH. apply registry_step_keys.
    pose proof (in_run_well_formed lib files st Hrun) as Hwf.
    destruct (step_registry lib (λ e, ¬ starts_run e) e st Hwf He)
      as [_ [Hd Hdec Hexc|f r r' Hcur Hget Hp Hatt Hd Hdec Hexc
            |f r Hcur Hget Hp Hd Hdec Hexc|files' Hne' Hrun' _ _ _]].
    + by apply rs_same.
    + by apply (rs_decrypt _ _ _ _ f r r').
    + by apply (rs_exclude _ _ _ _ f r).
    + destruct files'; [done|]. by destruct Hrun'.
Qed.

Lemma first_pending_keys d :
  NoDup (Dict.keys d) →
  first_pending d = head (filter (λ f, pending_in d f = true) (Dict.keys d)).
Proof.
  intros Hnd. unfold first_pending. f_equal.
  assert (∀ f r, (f, r) ∈ d → pending_in d f = is_pending r) as Hagree.
  { intros f r Hin. unfold pending_in. by rewrite (elem_of_get f r d Hnd Hin). }
  clear Hnd. unfold Dict.keys. generalize (pending_in d) Hagree.
  clear Hagree. intros Q HQ.
  induction d as [|[f r] d IH]; [done|].
  rewrite fmap_cons, !filter_cons; simpl.
  rewrite <-(HQ f r) by (apply elem_of_cons; by left).
  assert ((filter (λ fr : string * FileStatus, is_pending fr.2) d).*1 =
          filter (λ f, Q f = true) d.*1) as Hrest.
  { apply IH. intros g rg Hin. apply HQ, elem_of_cons. by right. }
  destruct (Q f); simpl; [f_equal|]; exact Hrest.
Qed.

(** C2. In every state of a run, [get_current_file] returns without an
    exception and leaves the session state as it was; calling it a second
    time gives the same answer; the answer is the name of the uploaded
    file of lowest position whose record is pending (encrypted, not
    decrypted, not excluded), and it is [None] exactly when no uploaded
    file has a pending record. *)
Theorem get_current_file_lowest_pending (files : list UploadedFile) st :
  in_run lib files st →
  ∃ current,
    get_current_file st = (Ok current, st) ∧
    (do first <- get_current_file;
     do second <- get_current_file;
     ret (first, second)) st = (Ok (current, current), st) ∧
    (∀ f, current = Some f ↔
       ∃ i file,
         files !! i = Some file ∧ name file = f ∧
         pending_in (file_status st) f = true ∧
         ∀ j file', j < i → files !! j = Some file' →
           pending_in (file_status st) (name file') = false) ∧
    (current = None ↔
       ∀ file, file ∈ files →
         pending_in (file_status st) (name file) = false).
Proof.
  intros Hrun. exists (first_pending (file_status st)).
  pose proof (in_run_well_formed lib files st Hrun) as [Hkeys _].
  split_and!.
  - apply get_current_file_eq.
  - unfold bind. by rewrite !get_current_file_eq.
  - intros f. rewrite first_pending_keys by done.
    rewrite (in_run_keys files st Hrun), filter_first_occurrences.
    rewrite head_filter_lowest. split.
    + intros (i & Hi & Hp & Hlow).
      apply list_lookup_fmap_Some in Hi as (file & -> & Hfile).
      exists i, file. split_and!; [done..|].
      intros j file' Hj Hfile'. apply not_true_is_false.
      apply (Hlow j (name file') Hj). by rewrite list_lookup_fmap, Hfile'.
    + intros (i & file & Hfile & <- & Hp & Hlow).
      exists i. split_and!; [by rewrite list_lookup_fmap, Hfile|done|].
      intros j g Hj (file' & -> & Hfile')%list_lookup_fmap_Some.
      by rewrite (Hlow j file' Hj Hfile').
  - rewrite first_pending_keys by done.
    rewrite (in_run_keys files st Hrun), filter_first_occurrences.
    rewrite head_filter_none. split.
    + intros Hall file Hin. apply not_true_is_false.
      apply Hall, list_elem_of_fmap. by exists file.
    + intros Hall g (file & -> & Hin)%list_elem_of_fmap.
      by rewrite (Hall file Hin).
Qed.

End order.

(** The current file of the example batch after the run button. *)
Lemma get_current_file_lowest_pending_witness :
  in_run example_library example_batch example_state ∧
  ∃ current,
    get_current_file example_state = (Ok current, example_state) ∧
    (do first <- get_current_file;
     do second <- get_current_file;
     ret (first, second)) example_state =
      (Ok (current, current), example_state) ∧
    (∀ f, current = Some f ↔
       ∃ i file,
         example_batch !! i = Some file ∧ name file = f ∧
         pending_in (file_status example_state) f = true ∧
         ∀ j file', j < i → example_batch !! j = Some file' →
           pending_in (file_status example_state) (name file') = false) ∧
    (current = None ↔
       ∀ file, file ∈ example_batch →
         pending_in (file_status example_state) (name file) = false).
Proof.
  assert (in_run example_library example_batch example_state) as Hrun.
  { apply (run_start example_library example_batch initial_state). discriminate. }
  split; [exact Hrun|].
  exact (get_current_file_lowest_pending example_library example_batch
           example_state Hrun).
Defined.

(** ** The callbacks *)

Section callbacks.
Context (lib : Library).
Implicit Types (st : SessionState) (f : string) (r : FileStatus) (e : event).

Lemma current_file_pending st f :
  reachable lib st →
  (get_current_file st).1 = Ok (Some f) →
  first_pending (file_status st) = Some f ∧ f ≠ "" ∧
  ∃ r, Dict.get f (file_status st) = Some r ∧ is_pending r = true.
Proof.
  intros Hreach Hcur. rewrite get_current_file_eq in Hcur.
  simpl in Hcur. injection Hcur as Hcur. split; [done|].
  apply first_pending_get; [|done].
  by apply (reachable_well_formed lib (λ _, True)).
Qed.

Lemma truthy_false (s : string) : truthy s = false ↔ s = "".
Proof. by destruct s. Qed.

(** C3. In a reachable state whose current pending file is [f], with
    record [r], a submitted non-empty password on which the decryption
    helper succeeds makes [handle_submit] return normally with: the
    record of [f] decrypted, its encrypted and excluded flags, its bytes
    and its extension as before; the record of every other name, and the
    order of the names, as before; [f] appended once at the end of the
    decrypted list; the excluded list as before; the error message and
    the password input empty. *)
Theorem handle_submit_success st f r r' :
  reachable lib st →
  (get_current_file st).1 = Ok (Some f) →
  Dict.get f (file_status st) = Some r →
  truthy (password_input st) = true →
  attempt lib r (password_input st) = Some r' →
  ∃ st',
    handle_submit lib st = (Ok (), st') ∧
    decrypted r = false ∧
    Dict.get f (file_status st') = Some r' ∧
    decrypted r' = true ∧
    encrypted r' = encrypted r ∧ excluded r' = excluded r ∧
    file_bytes r' = file_bytes r ∧ extension r' = extension r ∧
    (∀ g, g ≠ f → Dict.get g (file_status st') = Dict.get g (file_status st)) ∧
    Dict.keys (file_status st') = Dict.keys (file_status st) ∧
    decrypted_files st' = decrypted_files st ++ [f] ∧
    excluded_files st' = excluded_files st ∧
    error_message st' = "" ∧
    password_input st' = "" ∧
    processing st' = processing st.
Proof.
  intros Hreach Hcur Hget Hpw Hatt.
  destruct (current_file_pending st f Hreach Hcur)
    as (Hfirst & Hf & r0 & Hget0 & Hp).
  assert (r0 = r) as -> by congruence.
  eexists. split.
  { rewrite (handle_submit_eq lib st f r Hfirst Hf Hget), Hpw, Hatt. done. }
  apply is_pending_true in Hp as (_ & Hdec & _).
  destruct (attempt_Some lib r _ r' Hatt) as (Hext & Henc & Hdec' & Hexc & Hb & _).
  simpl. split_and!; try done.
  - apply get_set_eq.
  - intros g Hg. by apply get_set_ne.
  - apply keys_set_present, get_is_Some. by rewrite Hget.
Qed.

(** C4. In a reachable state whose current pending file is [f], with
    record [r], a submitted non-empty password on which the decryption
    helper fails makes [handle_submit] return normally having changed
    nothing but the error message, which is the incorrect-password text;
    the dictionary, both name lists, the password input and the
    processing flag are as before, and [f] is still the current file. *)
Theorem handle_submit_failure st f r :
  reachable lib st →
  (get_current_file st).1 = Ok (Some f) →
  Dict.get f (file_status st) = Some r →
  truthy (password_input st) = true →
  attempt lib r (password_input st) = None →
  ∃ st',
    handle_submit lib st = (Ok (), st') ∧
    st' = with_error_message msg_password_incorrect st ∧
    file_status st' = file_status st ∧
    decrypted_files st' = decrypted_files st ∧
    excluded_files st' = excluded_files st ∧
    password_input st' = password_input st ∧
    processing st' = processing st ∧
    error_message st' = msg_password_incorrect ∧
    (∀ g, pending_in (file_status st') g = pending_in (file_status st) g) ∧
    (get_current_file st').1 = Ok (Some f).
Proof.
  intros Hreach Hcur Hget Hpw Hatt.
  destruct (current_file_pending st f Hreach Hcur) as (Hfirst & Hf & _).
  eexists. split.
  { rewrite (handle_submit_eq lib st f r Hfirst Hf Hget), Hpw, Hatt. done. }
  split_and!; try done.
  rewrite get_current_file_eq. simpl. by rewrite Hfirst.
Qed.

(** C5. In a reachable state whose current pending file is [f],
    [handle_cancel] returns normally with: the record of [f] excluded
    (its flag was clear and is now set) and no longer the current file,
    every other field of it as before; the record of every other name,
    and the order of the names, as before; [f] appended once at the end
    of the excluded list; the decrypted list as before; the password
    input empty. *)
Theorem handle_cancel_excludes_current st f :
  reachable lib st →
  (get_current_file st).1 = Ok (Some f) →
  ∃ r r' st',
    Dict.get f (file_status st) = Some r ∧
    excluded r = false ∧
    handle_cancel st = (Ok (), st') ∧
    Dict.get f (file_status st') = Some r' ∧
    r' = set_excluded true r ∧
    excluded r' = true ∧
    extension r' = extension r ∧
    encrypted r' = encrypted r ∧
    decrypted r' = decrypted r ∧
    content r' = content r ∧
    file_bytes r' = file_bytes r ∧
    error r' = error r ∧
    (get_current_file st').1 ≠ Ok (Some f) ∧
    (∀ g, g ≠ f → Dict.get g (file_status st') = Dict.get g (file_status st)) ∧
    Dict.keys (file_status st') = Dict.keys (file_status st) ∧
    excluded_files st' = excluded_files st ++ [f] ∧
    decrypted_files st' = decrypted_files st ∧
    password_input st' = "" ∧
    processing st' = processing st.
Proof.
  intros Hreach Hcur.
  destruct (current_file_pending st f Hreach Hcur)
    as (Hfirst & Hf & r & Hget & Hp).
  apply is_pending_true in Hp as (_ & _ & Hexc).
  exists r, (set_excluded true r). eexists.
  split; [done|]. split; [done|]. split.
  { by rewrite (handle_cancel_eq st f r Hfirst Hf Hget). }
  simpl. split_and!; try done.
  - apply get_set_eq.
  - rewrite get_current_file_eq. simpl. intros [= Hagain].
    apply first_pending_elem_of in Hagain as (r'' & Hin & Hp'').
    apply elem_of_get in Hin.
    + rewrite get_set_eq in Hin. injection Hin as <-.
      apply is_pending_true in Hp'' as (_ & _ & Hclear).
      simpl in Hclear. discriminate.
    + apply NoDup_keys_set.
      by apply (reachable_well_formed lib (λ _, True)).
  - intros g Hg. by apply get_set_ne.
  - apply keys_set_present, get_is_Some. by rewrite Hget.
Qed.

(** C6. In a reachable state with a current pending file, submitting an
    empty password makes [handle_submit] return normally having changed
    nothing but the error message, which is the password-required text;
    and the result is the same whatever the two document libraries would
    answer, so none of their functions takes part in it. *)
Theorem handle_submit_empty_password st f :
  reachable lib st →
  (get_current_file st).1 = Ok (Some f) →
  password_input st = "" →
  ∃ st',
    st' = with_error_message msg_password_required st ∧
    (∀ lib', handle_submit lib' st = (Ok (), st')) ∧
    file_status st' = file_status st ∧
    decrypted_files st' = decrypted_files st ∧
    excluded_files st' = excluded_files st ∧
    password_input st' = password_input st ∧
    processing st' = processing st ∧
    error_message st' = msg_password_required.
Proof.
  intros Hreach Hcur Hpw.
  destruct (current_file_pending st f Hreach Hcur)
    as (Hfirst & Hf & r & Hget & _).
  eexists. split; [done|]. split_and!; try done.
  intros lib'. rewrite (handle_submit_eq lib' st f r Hfirst Hf Hget).
  by rewrite Hpw.
Qed.

(** Why the properties of the callbacks are stated on reachable states:
    a pending record under the empty name would be passed over by both
    callbacks, and no reachable state has one. *)
Lemma unnamed_pending_passed_over :
  (get_current_file unnamed_state).1 = Ok (Some "") ∧
  handle_submit lib unnamed_state = (Ok (), unnamed_state) ∧
  handle_cancel unnamed_state = (Ok (), unnamed_state) ∧
  ¬ reachable lib unnamed_state.
Proof.
  split_and!; [done..|].
  intros Hreach.
  by destruct (current_file_pending unnamed_state "" Hreach eq_refl) as (_ & ? & _).
Qed.

(** C9. In any state in which [get_current_file] returns [None], both
    callbacks return normally and leave the whole session state as it
    was. *)
Theorem callbacks_idle_without_pending st :
  (get_current_file st).1 = Ok None →
  handle_submit lib st = (Ok (), st) ∧ handle_cancel st = (Ok (), st).
Proof.
  rewrite get_current_file_eq. simpl. intros [= Hcur].
  split; [apply handle_submit_idle|apply handle_cancel_idle]; by rewrite Hcur.
Qed.

End callbacks.

(** ** The error message after a file is resolved *)

Section error_message.
Context (lib : Library).
Implicit Types (st : SessionState) (f : string) (r : FileStatus).

Lemma msg_cancelled_nonempty f : msg_cancelled f ≠ "".
Proof. unfold msg_cancelled. simpl. discriminate. Qed.

(** C7, as the script has it. In a reachable state whose current pending
    file is [f], with record [r]: after a successful password attempt and
    the rerun of the script the error message is empty; after a
    cancellation and the rerun of the script the error message is the
    notice that the processing of [f] was cancelled, which is not empty. *)
Theorem error_message_after_resolution st f r :
  reachable lib st →
  (get_current_file st).1 = Ok (Some f) →
  Dict.get f (file_status st) = Some r →
  (truthy (password_input st) = true →
   is_Some (attempt lib r (password_input st)) →
   error_message (step lib Submit st).2 = "") ∧
  error_message (step lib Cancel st).2 = msg_cancelled f ∧
  msg_cancelled f ≠ "".
Proof.
  intros Hreach Hcur Hget.
  destruct (current_file_pending lib st f Hreach Hcur) as (Hfirst & Hf & _).
  split_and!.
  - intros Hpw [r' Hatt]. unfold step.
    rewrite (bind_ok _ _ _ _ _ (handle_submit_eq lib st f r Hfirst Hf Hget)).
    rewrite Hpw, Hatt.
    match goal with |- context [script_tail ?s] =>
      destruct (script_tail_fields s) as (_ & _ & _ & -> & _) end.
    done.
  - unfold step.
    rewrite (bind_ok _ _ _ _ _ (handle_cancel_eq st f r Hfirst Hf Hget)).
    match goal with |- context [script_tail ?s] =>
      destruct (script_tail_fields s) as (_ & _ & _ & -> & _) end.
    done.
  - apply msg_cancelled_nonempty.
Qed.

End error_message.

(** ** Ingestion *)

Section ingestion_properties.
Context (lib : Library).
Implicit Types (st : SessionState) (file : UploadedFile).

(** C8. One iteration of the ingestion loop always ends normally, and so
    does the whole loop on any batch. The record stored for the file has
    [encrypted = false] when the extension is none of the four, and when
    the detection call of the file's library raises; and whenever the
    record has [encrypted = false], the same iteration has set its
    decrypted flag and appended the name at the end of the decrypted
    list. *)
Theorem ingestion_fails_open file st :
  ∃ st' r,
    ingest_file lib file st = (Ok (), st') ∧
    Dict.get (name file) (file_status st') = Some r ∧
    file_bytes r = data file ∧
    (extension_of (name file) ∉ ["pdf"; "docx"; "xlsx"; "pptx"] →
     encrypted r = false) ∧
    (extension_of (name file) = "pdf" →
     PdfReader_is_encrypted lib (data file) = None → encrypted r = false) ∧
    (extension_of (name file) ∈ ["docx"; "xlsx"; "pptx"] →
     OfficeFile_is_encrypted lib (data file) = None → encrypted r = false) ∧
    (encrypted r = false →
     decrypted r = true ∧
     decrypted_files st' = decrypted_files st ++ [name file]) ∧
    (∀ files, (run_button lib files st).1 = Ok ()).
Proof.
  eexists. exists (ingested_record lib file).
  split; [apply ingest_file_eq|]. simpl.
  split; [apply get_set_eq|]. split; [done|].
  unfold detected_encrypted. split_and!.
  - intros Hext. rewrite decide_False.
    + rewrite decide_False; [done|]. intros Hin. apply Hext.
      apply elem_of_cons. by right.
    + intros Hpdf. apply Hext. apply elem_of_cons. by left.
  - intros Hpdf Hraise. rewrite decide_True by done.
    unfold is_pdf_encrypted. by rewrite Hraise.
  - intros Hoffice Hraise.
    rewrite decide_False.
    + rewrite decide_True by done.
      unfold is_office_encrypted. by rewrite Hraise.
    + intros Hpdf. rewrite Hpdf in Hoffice.
      rewrite !elem_of_cons, elem_of_nil in Hoffice.
      by destruct Hoffice as [?|[?|[?|?]]].
  - intros ->. done.
  - intros [|file' files]; [done|]. by rewrite run_button_eq.
Qed.

Lemma filter_key_unique {V : Type} (d : list (string * V)) (k : string) (v : V) :
  NoDup (Dict.keys d) →
  Dict.get k d = Some v →
  filter (λ kv, kv.1 = k) d = [(k, v)].
Proof.
  unfold Dict.keys. induction d as [|[k0 v0] d IH]; [done|].
  simpl. intros [Hk0 Hnd]%NoDup_cons Hget.
  destruct (decide (k = k0)) as [->|Hne].
  - simplify_eq. rewrite filter_cons_True by done. f_equal.
    apply head_None, head_filter_none. intros [k1 v1] Hin Heq.
    simpl in Heq. subst k1. apply Hk0, list_elem_of_fmap. by exists (k0, v1).
  - rewrite filter_cons_False by (simpl; congruence). by apply IH.
Qed.

(** C10. When a batch holds the same name twice, [first] before [last]
    and [last] the last file of that name, the run button ends normally
    with exactly one entry under the name, the record built from [last]
    (its bytes, its detection result); the decrypted list holds the names
    of the files detected as not encrypted, one for each such file in the
    order of the batch; so when [first] and [last] are both detected as
    not encrypted the name stands at least twice in the decrypted list. *)
Theorem ingest_same_name_twice (l1 l2 l3 : list UploadedFile)
  (first last : UploadedFile) st :
  name first = name last →
  name last ∉ name <$> l3 →
  ∃ st',
    run_button lib (l1 ++ first :: l2 ++ last :: l3) st = (Ok (), st') ∧
    filter (λ fr, fr.1 = name last) (file_status st') =
      [(name last, ingested_record lib last)] ∧
    Dict.get (name last) (file_status st') = Some (ingested_record lib last) ∧
    file_bytes (ingested_record lib last) = data last ∧
    encrypted (ingested_record lib last) = detected_encrypted lib last ∧
    decrypted_files st' =
      name <$> filter (λ file, detected_encrypted lib file = false)
                 (l1 ++ first :: l2 ++ last :: l3) ∧
    (detected_encrypted lib first = false →
     detected_encrypted lib last = false →
     (2 ≤ List.length (filter (λ g, g = name last) (decrypted_files st')))%nat ∧
     ¬ NoDup (decrypted_files st')).
Proof.
  intros Hsame Hlast. eexists. split.
  { apply run_button_eq. by destruct l1. }
  assert (Dict.get (name last)
            (file_status (ingested_state lib (l1 ++ first :: l2 ++ last :: l3)))
          = Some (ingested_record lib last)) as Hget.
  { simpl.
    replace (l1 ++ first :: l2 ++ last :: l3)
      with ((l1 ++ first :: l2) ++ last :: l3) by by rewrite <-app_assoc.
    by apply get_ingested_last. }
  split_and!; try done.
  - apply filter_key_unique; [|done].
    apply (ingested_state_well_formed lib).
  - intros Hfirst Hlast'. simpl. unfold ingested_names.
    rewrite filter_app, filter_cons_True by done.
    rewrite filter_app, filter_cons_True by done.
    rewrite fmap_app, fmap_cons, fmap_app, fmap_cons, Hsame.
    split.
    + rewrite filter_app, filter_cons_True by done.
      rewrite filter_app, filter_cons_True by done.
      rewrite length_app. simpl. rewrite length_app. simpl. lia.
    + intros (_ & _ & Hnd)%NoDup_app.
      apply NoDup_cons in Hnd as [Hnotin _]. apply Hnotin.
      apply elem_of_app. right. apply elem_of_cons. by left.
Qed.

End ingestion_properties.

(** ** The properties on the example batch *)

Lemma example_state_reachable : reachable example_library example_state.
Proof.
  apply (reach_step _ _ initial_state (Run example_batch));
    [apply reach_init|done].
Qed.

Lemma example_typed_reachable (password : string) :
  reachable example_library (example_typed password).
Proof.
  apply (reach_step _ _ example_state (TypePassword password));
    [apply example_state_reachable|done].
Qed.

(** The password of b.docx is submitted. *)
Lemma handle_submit_success_witness :
  ∃ st',
    handle_submit example_library (example_typed "y") = (Ok (), st') ∧
    decrypted (ingested_record example_library example_b) = false ∧
    Dict.get "b.docx" (file_status st') =
      Some (set_decrypted true (set_content (Some [Byte.x02])
              (ingested_record example_library example_b))) ∧
    decrypted (set_decrypted true (set_content (Some [Byte.x02])
                 (ingested_record example_library example_b))) = true ∧
    encrypted (set_decrypted true (set_content (Some [Byte.x02])
                 (ingested_record example_library example_b))) =
      encrypted (ingested_record example_library example_b) ∧
    excluded (set_decrypted true (set_content (Some [Byte.x02])
                (ingested_record example_library example_b))) =
      excluded (ingested_record example_library example_b) ∧
    file_bytes (set_decrypted true (set_content (Some [Byte.x02])
                  (ingested_record example_library example_b))) =
      file_bytes (ingested_record example_library example_b) ∧
    extension (set_decrypted true (set_content (Some [Byte.x02])
                 (ingested_record example_library example_b))) =
      extension (ingested_record example_library example_b) ∧
    (∀ g, g ≠ "b.docx" →
          Dict.get g (file_status st') =
          Dict.get g (file_status (example_typed "y"))) ∧
    Dict.keys (file_status st') = Dict.keys (file_status (example_typed "y")) ∧
    decrypted_files st' = decrypted_files (example_typed "y") ++ ["b.docx"] ∧
    excluded_files st' = excluded_files (example_typed "y") ∧
    error_message st' = "" ∧
    password_input st' = "" ∧
    processing st' = processing (example_typed "y").
Proof.
  apply (handle_submit_success example_library (example_typed "y") "b.docx"
           (ingested_record example_library example_b)).
  - apply example_typed_reachable.
  - reflexivity.
  - reflexivity.
  - reflexivity.
  - reflexivity.
Defined.

(** A wrong password for b.docx is submitted. *)
Lemma handle_submit_failure_witness :
  ∃ st',
    handle_submit example_library (example_typed "wrong") = (Ok (), st') ∧
    st' = with_error_message msg_password_incorrect (example_typed "wrong") ∧
    file_status st' = file_status (example_typed "wrong") ∧
    decrypted_files st' = decrypted_files (example_typed "wrong") ∧
    excluded_files st' = excluded_files (example_typed "wrong") ∧
    password_input st' = password_input (example_typed "wrong") ∧
    processing st' = processing (example_typed "wrong") ∧
    error_message st' = msg_password_incorrect ∧
    (∀ g, pending_in (file_status st') g =
          pending_in (file_status (example_typed "wrong")) g) ∧
    (get_current_file st').1 = Ok (Some "b.docx").
Proof.
  apply (handle_submit_failure example_library (example_typed "wrong") "b.docx"
           (ingested_record example_library example_b)).
  - apply example_typed_reachable.
  - reflexivity.
  - reflexivity.
  - reflexivity.
  - reflexivity.
Defined.

(** The dialog of b.docx is cancelled. *)
Lemma handle_cancel_excludes_current_witness :
  ∃ r r' st',
    Dict.get "b.docx" (file_status example_state) = Some r ∧
    excluded r = false ∧
    handle_cancel example_state = (Ok (), st') ∧
    Dict.get "b.docx" (file_status st') = Some r' ∧
    r' = set_excluded true r ∧
    excluded r' = true ∧
    extension r' = extension r ∧
    encrypted r' = encrypted r ∧
    decrypted r' = decrypted r ∧
    content r' = content r ∧
    file_bytes r' = file_bytes r ∧
    error r' = error r ∧
    (get_current_file st').1 ≠ Ok (Some "b.docx") ∧
    (∀ g, g ≠ "b.docx" →
          Dict.get g (file_status st') = Dict.get g (file_status example_state)) ∧
    Dict.keys (file_status st') = Dict.keys (file_status example_state) ∧
    excluded_files st' = excluded_files example_state ++ ["b.docx"] ∧
    decrypted_files st' = decrypted_files example_state ∧
    password_input st' = "" ∧
    processing st' = processing example_state.
Proof.
  apply (handle_cancel_excludes_current example_library example_state "b.docx").
  - apply example_state_reachable.
  - reflexivity.
Defined.

(** Submit is pressed with nothing typed. *)
Lemma handle_submit_empty_password_witness :
  ∃ st',
    st' = with_error_message msg_password_required example_state ∧
    (∀ lib', handle_submit lib' example_state = (Ok (), st')) ∧
    file_status st' = file_status example_state ∧
    decrypted_files st' = decrypted_files example_state ∧
    excluded_files st' = excluded_files example_state ∧
    password_input st' = password_input example_state ∧
    processing st' = processing example_state ∧
    error_message st' = msg_password_required.
Proof.
  apply (handle_submit_empty_password example_library example_state "b.docx").
  - apply example_state_reachable.
  - reflexivity.
  - reflexivity.
Defined.

(** The callbacks before any file was uploaded. *)
Lemma callbacks_idle_without_pending_witness :
  handle_submit example_library initial_state = (Ok (), initial_state) ∧
  handle_cancel initial_state = (Ok (), initial_state).
Proof.
  apply (callbacks_idle_without_pending example_library initial_state).
  reflexivity.
Defined.

(** C7, as claimed, fails: after the dialog of b.docx is cancelled the
    dialog of c.pdf opens, and the error message it shows is the
    cancellation notice of b.docx, not the empty string. *)
Lemma error_message_after_cancel_not_empty :
  reachable example_library example_state ∧
  (get_current_file example_state).1 = Ok (Some "b.docx") ∧
  (get_current_file (step example_library Cancel example_state).2).1 =
    Ok (Some "c.pdf") ∧
  error_message (step example_library Cancel example_state).2 =
    msg_cancelled "b.docx" ∧
  error_message (step example_library Cancel example_state).2 ≠ "".
Proof.
  split; [apply example_state_reachable|].
  split; [reflexivity|]. split; [reflexivity|]. split; [reflexivity|].
  vm_compute. discriminate.
Qed.

(** The error message after b.docx is decrypted with its password, and
    after its dialog is cancelled. *)
Lemma error_message_after_resolution_witness :
  (truthy (password_input (example_typed "y")) = true →
   is_Some (attempt example_library
              (ingested_record example_library example_b)
              (password_input (example_typed "y"))) →
   error_message (step example_library Submit (example_typed "y")).2 = "") ∧
  error_message (step example_library Cancel (example_typed "y")).2 =
    msg_cancelled "b.docx" ∧
  msg_cancelled "b.docx" ≠ "".
Proof.
  apply (error_message_after_resolution example_library (example_typed "y")
           "b.docx" (ingested_record example_library example_b)).
  - apply example_typed_reachable.
  - reflexivity.
  - reflexivity.
Defined.

(** A batch with a.pdf twice, not protected either time. *)
Lemma ingest_same_name_twice_witness :
  ∃ st',
    run_button example_library
      ([] ++ example_a :: [example_b] ++ example_a_again :: [])
      initial_state = (Ok (), st') ∧
    filter (λ fr, fr.1 = name example_a_again) (file_status st') =
      [(name example_a_again, ingested_record example_library example_a_again)] ∧
    Dict.get (name example_a_again) (file_status st') =
      Some (ingested_record example_library example_a_again) ∧
    file_bytes (ingested_record example_library example_a_again) =
      data example_a_again ∧
    encrypted (ingested_record example_library example_a_again) =
      detected_encrypted example_library example_a_again ∧
    decrypted_files st' =
      name <$> filter (λ file, detected_encrypted example_library file = false)
                 ([] ++ example_a :: [example_b] ++ example_a_again :: []) ∧
    (detected_encrypted example_library example_a = false →
     detected_encrypted example_library example_a_again = false →
     (2 ≤ List.length
            (filter (λ g, g = name example_a_again) (decrypted_files st')))%nat ∧
     ¬ NoDup (decrypted_files st')).
Proof.
  apply (ingest_same_name_twice example_library [] [example_b] []
           example_a example_a_again initial_state).
  - reflexivity.
  - simpl. apply not_elem_of_nil.
Defined.

(** ** Events as functions of the state *)

Section event_functions.
Context (lib : Library).
Implicit Types (st : SessionState) (f : string) (r : FileStatus) (e : event)
  (d : list (string * FileStatus)).

Lemma first_pending_key d f :
  first_pending d = Some f → is_Some (Dict.get f d).
Proof.
  intros (r & Hin & _)%first_pending_elem_of.
  apply get_is_Some. unfold Dict.keys. apply list_elem_of_fmap.
  by exists (f, r).
Qed.

Lemma truthy_true (s : string) : truthy s = true ↔ s ≠ "".
Proof. by destruct s. Qed.

Lemma handle_submit_callback st :
  handle_submit lib st = (Ok (), callback_state lib Submit st).
Proof.
  unfold callback_state.
  destruct (first_pending (file_status st)) as [f|] eqn:Hcur;
    [|apply handle_submit_idle; by rewrite Hcur].
  destruct (first_pending_key _ f Hcur) as [r Hget]. rewrite Hget.
  destruct (truthy f) eqn:Hf; simpl.
  - apply (handle_submit_eq lib st f r Hcur); [by apply truthy_true|done].
  - apply handle_submit_idle. by rewrite Hcur.
Qed.

Lemma handle_cancel_callback st :
  handle_cancel st = (Ok (), callback_state lib Cancel st).
Proof.
  unfold callback_state.
  destruct (first_pending (file_status st)) as [f|] eqn:Hcur;
    [|apply handle_cancel_idle; by rewrite Hcur].
  destruct (first_pending_key _ f Hcur) as [r Hget]. rewrite Hget.
  destruct (truthy f) eqn:Hf; simpl.
  - apply (handle_cancel_eq st f r Hcur); [by apply truthy_true|done].
  - apply handle_cancel_idle. by rewrite Hcur.
Qed.

(** The callback of an event never raises, whatever the state, and
    leaves the state [callback_state]; the script then leaves
    [tail_state]. *)
Lemma step_eq e st :
  step lib e st = (Ok (), tail_state (callback_state lib e st)).
Proof.
  destruct e as [files|password| |]; unfold step.
  - destruct files as [|file files].
    + rewrite (bind_ok _ _ _ _ _ (run_button_empty lib st)).
      apply script_tail_eq.
    + rewrite (bind_ok _ _ _ () (ingested_state lib (file :: files)))
        by by apply run_button_eq.
      apply script_tail_eq.
  - unfold bind at 1, modify. apply script_tail_eq.
  - rewrite (bind_ok _ _ _ _ _ (handle_submit_callback st)).
    apply script_tail_eq.
  - rewrite (bind_ok _ _ _ _ _ (handle_cancel_callback st)).
    apply script_tail_eq.
Qed.

Lemma tail_state_fields st :
  file_status (tail_state st) = file_status st ∧
  decrypted_files (tail_state st) = decrypted_files st ∧
  excluded_files (tail_state st) = excluded_files st ∧
  error_message (tail_state st) = error_message st ∧
  password_input (tail_state st) = password_input st.
Proof. unfold tail_state. by destruct (_ && _). Qed.

Lemma file_status_step e st :
  file_status (step lib e st).2 = file_status (callback_state lib e st).
Proof. rewrite step_eq. simpl. apply tail_state_fields. Qed.

(** In a well-formed state the current file has a name and a pending
    record, so the callbacks take their main branch. *)
Lemma callback_state_submit st f r :
  well_formed st →
  first_pending (file_status st) = Some f →
  Dict.get f (file_status st) = Some r →
  callback_state lib Submit st =
  if truthy (password_input st) then
    match attempt lib r (password_input st) with
    | Some r' =>
        with_password_input ""
          (with_error_message ""
             (with_decrypted_files (decrypted_files st ++ [f])
                (with_file_status (Dict.set f r' (file_status st)) st)))
    | None => with_error_message msg_password_incorrect st
    end
  else with_error_message msg_password_required st.
Proof.
  intros Hwf Hcur Hget. unfold callback_state. rewrite Hcur, Hget.
  destruct (first_pending_get st f Hwf Hcur) as (Hf & _).
  by rewrite (truthy_nonempty f Hf).
Qed.

Lemma callback_state_cancel st f r :
  well_formed st →
  first_pending (file_status st) = Some f →
  Dict.get f (file_status st) = Some r →
  callback_state lib Cancel st =
  with_password_input ""
    (with_error_message (msg_cancelled f)
       (with_excluded_files (excluded_files st ++ [f])
          (with_file_status
             (Dict.set f (set_excluded true r) (file_status st)) st))).
Proof.
  intros Hwf Hcur Hget. unfold callback_state. rewrite Hcur, Hget.
  destruct (first_pending_get st f Hwf Hcur) as (Hf & _).
  by rewrite (truthy_nonempty f Hf).
Qed.

Lemma callback_state_idle e st :
  first_pending (file_status st) = None →
  ¬ starts_run e →
  file_status (callback_state lib e st) = file_status st ∧
  decrypted_files (callback_state lib e st) = decrypted_files st ∧
  excluded_files (callback_state lib e st) = excluded_files st ∧
  processing (callback_state lib e st) = processing st.
Proof.
  intros Hcur He. destruct e as [[|file files]|password| |]; simpl;
    rewrite ?Hcur; done.
Qed.

End event_functions.

(** ** What the records hold *)

Section records.
Context (lib : Library).
Implicit Types (st : SessionState) (f : string) (r : FileStatus) (e : event).

Lemma ingested_record_ok (file : UploadedFile) :
  record_ok lib (name file) (ingested_record lib file).
Proof.
  split; simpl; try done.
  - intros ->. done.
  - intros ->. done.
Qed.

Lemma attempt_record_ok f r r' (password : string) :
  record_ok lib f r →
  is_pending r = true →
  truthy password = true →
  attempt lib r password = Some r' →
  record_ok lib f r'.
Proof.
  intros [Hext Herr Hdet Hplain Hexcl Hunop Hop]
    (Henc & Hdec & Hexc)%is_pending_true Hpw Hatt.
  pose proof (attempt_Some lib r password r' Hatt)
    as (Hext' & Henc' & Hdec' & Hexc' & Hbytes' & Herr').
  split.
  - congruence.
  - congruence.
  - rewrite Henc', Hbytes'. done.
  - congruence.
  - congruence.
  - congruence.
  - intros _ _. exists password. split; [done|].
    unfold opened_by. rewrite Hext', Hbytes'.
    unfold attempt in Hatt.
    destruct (decide (extension r = "pdf")).
    + destruct (decrypt_pdf lib (file_bytes r) password); [|done].
      simplify_eq. simpl. split; [done|]. by apply Hunop.
    + destruct (decrypt_office lib (file_bytes r) password) as [b|]; [|done].
      simplify_eq. simpl. split; [by eexists|done].
Qed.

Lemma excluded_record_ok f r :
  record_ok lib f r →
  is_pending r = true →
  record_ok lib f (set_excluded true r).
Proof.
  intros [Hext Herr Hdet Hplain Hexcl Hunop Hop]
    (Henc & Hdec & Hexc)%is_pending_true.
  split; simpl; try done; congruence.
Qed.

Lemma callback_records_ok e st :
  well_formed st →
  (∀ f r, Dict.get f (file_status st) = Some r → record_ok lib f r) →
  ∀ f r, Dict.get f (file_status (callback_state lib e st)) = Some r →
         record_ok lib f r.
Proof.
  intros Hwf Hok. destruct e as [[|file files]|password| |].
  - done.
  - intros f r [Hget|(file' & _ & <- & ->)]%get_ingested_inv; [done|].
    apply ingested_record_ok.
  - done.
  - destruct (first_pending (file_status st)) as [f|] eqn:Hcur;
      [|unfold callback_state; by rewrite Hcur].
    destruct (first_pending_get st f Hwf Hcur) as (Hf & r & Hget & Hp).
    rewrite (callback_state_submit lib st f r Hwf Hcur Hget).
    destruct (truthy (password_input st)) eqn:Hpw; [|done].
    destruct (attempt lib r (password_input st)) as [r'|] eqn:Hatt; [|done].
    simpl. intros g rg. destruct (decide (f = g)) as [<-|Hne].
    + rewrite get_set_eq. intros [= <-].
      apply (attempt_record_ok f r r' (password_input st)); auto.
    + rewrite get_set_ne by done. apply Hok.
  - destruct (first_pending (file_status st)) as [f|] eqn:Hcur;
      [|unfold callback_state; by rewrite Hcur].
    destruct (first_pending_get st f Hwf Hcur) as (Hf & r & Hget & Hp).
    rewrite (callback_state_cancel lib st f r Hwf Hcur Hget).
    simpl. intros g rg. destruct (decide (f = g)) as [<-|Hne].
    + rewrite get_set_eq. intros [= <-]. apply excluded_record_ok; auto.
    + rewrite get_set_ne by done. apply Hok.
Qed.

Lemma reachable_records_ok allowed st :
  reachable_by lib allowed st →
  ∀ f r, Dict.get f (file_status st) = Some r → record_ok lib f r.
Proof.
  induction 1 as [|st e Hreach IH He]; [done|].
  rewrite file_status_step. apply callback_records_ok; [|done].
  by apply (reachable_well_formed lib allowed).
Qed.

(** X4. In every reachable state the record stored under a name has the
    extension computed from that name, no error note, the encrypted flag
    the detection gives on the record's own bytes, never both the
    decrypted and the excluded flag, and, when it is not encrypted, it is
    decrypted and not excluded. *)
Theorem records_consistent st f r :
  reachable lib st →
  Dict.get f (file_status st) = Some r →
  extension r = extension_of f ∧
  error r = None ∧
  encrypted r =
    detected_encrypted lib {| name := f; data := file_bytes r |} ∧
  decrypted r && excluded r = false ∧
  (encrypted r = false → decrypted r = true ∧ excluded r = false).
Proof.
  intros Hreach Hget.
  destruct (reachable_records_ok _ st Hreach f r Hget)
    as [Hext Herr Hdet Hplain Hexcl Hunop Hop].
  split_and!; try done.
  - destruct (decrypted r), (excluded r); try done. by destruct Hexcl.
  - intros Henc. by destruct (Hplain Henc) as (? & ? & _).
Qed.

(** X5. In every reachable state an encrypted record is marked decrypted
    only if some non-empty password opens it: the decryption helper of
    its format succeeds with that password on the record's own bytes. *)
Theorem decrypted_by_opening_password st f r :
  reachable lib st →
  Dict.get f (file_status st) = Some r →
  encrypted r = true →
  decrypted r = true →
  ∃ password,
    password ≠ "" ∧
    if decide (extension r = "pdf") then
      decrypt_pdf lib (file_bytes r) password = true
    else
      is_Some (decrypt_office lib (file_bytes r) password).
Proof.
  intros Hreach Hget Henc Hdec.
  destruct (reachable_records_ok _ st Hreach f r Hget)
    as [_ _ _ _ _ _ Hop].
  destruct (Hop Henc Hdec) as (password & Hpw & Hopen).
  exists password. split; [by apply truthy_true|].
  unfold opened_by in Hopen.
  destruct (decide (extension r = "pdf")).
  - by destruct Hopen.
  - destruct Hopen as [Hsome ->]. done.
Qed.

(** X6. In every reachable state a record has decrypted content only if
    it is an office file (docx, xlsx or pptx) that was encrypted and is
    now decrypted, and the content is what [decrypt_office] returns on
    the record's own bytes for some non-empty password; a PDF record
    never has content. *)
Theorem content_is_office_decryption st f r (b : bytes) :
  reachable lib st →
  Dict.get f (file_status st) = Some r →
  content r = Some b →
  extension r ∈ ["docx"; "xlsx"; "pptx"] ∧
  extension r ≠ "pdf" ∧
  encrypted r = true ∧
  decrypted r = true ∧
  ∃ password,
    password ≠ "" ∧ decrypt_office lib (file_bytes r) password = Some b.
Proof.
  intros Hreach Hget Hcontent.
  destruct (reachable_records_ok _ st Hreach f r Hget)
    as [Hext _ Hdet Hplain _ Hunop Hop].
  assert (decrypted r = true) as Hdec.
  { destruct (decrypted r); [done|]. rewrite Hunop in Hcontent; done. }
  assert (encrypted r = true) as Henc.
  { destruct (encrypted r); [done|].
    destruct Hplain as (_ & _ & Hnone); [done|]. congruence. }
  destruct (Hop Henc Hdec) as (password & Hpw & Hopen).
  unfold opened_by in Hopen.
  destruct (decide (extension r = "pdf")) as [Hpdf|Hpdf].
  { destruct Hopen as [_ Hnone]. congruence. }
  destruct Hopen as [_ Hoffice].
  split_and!; try done.
  - rewrite Henc in Hdet. unfold detected_encrypted in Hdet. simpl in Hdet.
    rewrite <-Hext in Hdet. rewrite decide_False in Hdet by done.
    by destruct (decide (extension r ∈ ["docx"; "xlsx"; "pptx"])).
  - exists password. split; [by apply truthy_true|congruence].
Qed.

End records.

(** The record of b.docx once its password was submitted. *)
Lemma example_opened_reachable : reachable example_library example_opened.
Proof.
  apply (reach_step _ _ (example_typed "y") Submit); [|done].
  apply example_typed_reachable.
Qed.

Lemma records_consistent_witness :
  extension example_opened_record = extension_of "b.docx" ∧
  error example_opened_record = None ∧
  encrypted example_opened_record =
    detected_encrypted example_library
      {| name := "b.docx"; data := file_bytes example_opened_record |} ∧
  decrypted example_opened_record && excluded example_opened_record = false ∧
  (encrypted example_opened_record = false →
   decrypted example_opened_record = true ∧
   excluded example_opened_record = false).
Proof.
  apply (records_consistent example_library example_opened "b.docx").
  - apply example_opened_reachable.
  - reflexivity.
Defined.

Lemma decrypted_by_opening_password_witness :
  ∃ password,
    password ≠ "" ∧
    if decide (extension example_opened_record = "pdf") then
      decrypt_pdf example_library (file_bytes example_opened_record) password
      = true
    else
      is_Some (decrypt_office example_library
                 (file_bytes example_opened_record) password).
Proof.
  apply (decrypted_by_opening_password example_library example_opened "b.docx").
  - apply example_opened_reachable.
  - reflexivity.
  - reflexivity.
  - reflexivity.
Defined.

Lemma content_is_office_decryption_witness :
  extension example_opened_record ∈ ["docx"; "xlsx"; "pptx"] ∧
  extension example_opened_record ≠ "pdf" ∧
  encrypted example_opened_record = true ∧
  decrypted example_opened_record = true ∧
  ∃ password,
    password ≠ "" ∧
    decrypt_office example_library (file_bytes example_opened_record) password
    = Some [Byte.x02].
Proof.
  apply (content_is_office_decryption example_library example_opened "b.docx").
  - apply example_opened_reachable.
  - reflexivity.
  - reflexivity.
Defined.

(** ** Progress of a run *)

Section progress.
Context (lib : Library).
Implicit Types (st : SessionState) (f : string) (r : FileStatus) (e : event)
  (d : list (string * FileStatus)).

Lemma pending_files_set_head d f (rest : list string) r' :
  NoDup (Dict.keys d) →
  pending_files d = f :: rest →
  is_pending r' = false →
  pending_files (Dict.set f r' d) = rest.
Proof.
  unfold pending_files, Dict.keys. intros Hnd Hpend Hr'.
  induction d as [|[k v] d IH]; [done|].
  simpl in Hnd. apply NoDup_cons in Hnd as [Hk Hnd].
  rewrite filter_cons in Hpend. simpl in *.
  destruct (decide (is_pending v)) as [Hv|Hv].
  - rewrite fmap_cons in Hpend. simpl in Hpend. simplify_eq.
    rewrite decide_True by done.
    rewrite filter_cons_False; [done|]. simpl. rewrite Hr'. by intros ?.
  - assert (f ≠ k) as Hne.
    { intros ->. apply Hk.
      assert (k ∈ (filter (λ fr, is_pending fr.2) d).*1) as Hin
        by (rewrite Hpend; apply elem_of_cons; by left).
      apply list_elem_of_fmap in Hin as ([k' v'] & -> & Hin).
      apply list_elem_of_filter in Hin as [_ Hin].
      apply list_elem_of_fmap. by exists (k', v'). }
    rewrite decide_False by done.
    rewrite filter_cons_False by done. by apply IH.
Qed.

Lemma pending_files_head st f (rest : list string) :
  well_formed st →
  pending_files (file_status st) = f :: rest →
  first_pending (file_status st) = Some f ∧ f ≠ "" ∧
  ∃ r, Dict.get f (file_status st) = Some r ∧ is_pending r = true.
Proof.
  intros Hwf Hpend.
  assert (first_pending (file_status st) = Some f) as Hcur.
  { unfold first_pending. fold (pending_files (file_status st)).
    by rewrite Hpend. }
  split; [done|]. by apply first_pending_get.
Qed.

Lemma set_excluded_not_pending r : is_pending (set_excluded true r) = false.
Proof. unfold is_pending. simpl. by rewrite andb_false_r. Qed.

Lemma attempt_not_pending r r' (password : string) :
  attempt lib r password = Some r' → is_pending r' = false.
Proof.
  intros Hatt. destruct (attempt_Some lib r password r' Hatt) as (_ & _ & Hdec & _).
  unfold is_pending.
  rewrite Hdec. simpl. by rewrite andb_false_r.
Qed.

Lemma resolution_pending_files st f (rest : list string) :
  reachable lib st →
  pending_files (file_status st) = f :: rest →
  pending_files (file_status (handle_cancel st).2) = rest ∧
  (∀ r, Dict.get f (file_status st) = Some r →
        truthy (password_input st) = true →
        is_Some (attempt lib r (password_input st)) →
        pending_files (file_status (handle_submit lib st).2) = rest).
Proof.
  intros Hreach Hpend.
  pose proof (reachable_well_formed lib _ _ Hreach) as Hwf.
  destruct (pending_files_head st f rest Hwf Hpend)
    as (Hcur & Hf & r & Hget & Hp).
  split.
  - rewrite (handle_cancel_callback lib). cbn [snd].
    rewrite (callback_state_cancel lib st f r Hwf Hcur Hget). simpl.
    apply pending_files_set_head; [apply Hwf|done|].
    apply set_excluded_not_pending.
  - intros r0 Hget0 Hpw [r' Hatt]. assert (r0 = r) as -> by congruence.
    rewrite handle_submit_callback. cbn [snd].
    rewrite (callback_state_submit lib st f r Hwf Hcur Hget), Hpw, Hatt. simpl.
    apply pending_files_set_head; [apply Hwf|done|].
    by apply (attempt_not_pending r r' (password_input st)).
Qed.

(** X9. In a reachable state whose pending files are [f] followed by
    [rest], cancelling, or submitting a non-empty password that opens
    [f], leaves exactly [rest] pending, in the same order: the next
    dialog is for the head of [rest], never again for [f] and never for
    an earlier file. *)
Theorem resolving_pops_current st f (rest : list string) :
  reachable lib st →
  pending_files (file_status st) = f :: rest →
  pending_files (file_status (handle_cancel st).2) = rest ∧
  (get_current_file (handle_cancel st).2).1 = Ok (head rest) ∧
  (∀ r, Dict.get f (file_status st) = Some r →
        truthy (password_input st) = true →
        is_Some (attempt lib r (password_input st)) →
        pending_files (file_status (handle_submit lib st).2) = rest ∧
        (get_current_file (handle_submit lib st).2).1 = Ok (head rest)).
Proof.
  intros Hreach Hpend.
  destruct (resolution_pending_files st f rest Hreach Hpend)
    as [Hcancel Hsubmit].
  split; [done|]. split.
  - rewrite get_current_file_eq. simpl. unfold first_pending.
    fold (pending_files (file_status (handle_cancel st).2)).
    by rewrite Hcancel.
  - intros r Hget Hpw Hatt.
    pose proof (Hsubmit r Hget Hpw Hatt) as Hrest.
    split; [done|].
    rewrite get_current_file_eq. simpl. unfold first_pending.
    fold (pending_files (file_status (handle_submit lib st).2)).
    by rewrite Hrest.
Qed.

(** X13. Whatever the session state, well formed or not, the two
    callbacks, [get_current_file] and every event end without an
    exception: no dictionary is ever indexed by a missing key. *)
Theorem callbacks_never_raise st e :
  (get_current_file st).1 = Ok (first_pending (file_status st)) ∧
  (handle_submit lib st).1 = Ok () ∧
  (handle_cancel st).1 = Ok () ∧
  (step lib e st).1 = Ok ().
Proof.
  split_and!.
  - by rewrite get_current_file_eq.
  - by rewrite handle_submit_callback.
  - by rewrite (handle_cancel_callback lib).
  - by rewrite step_eq.
Qed.

Lemma reachable_processing allowed st :
  reachable_by lib allowed st →
  processing st = truthy_opt (first_pending (file_status st)).
Proof.
  induction 1 as [|st e Hreach IH He]; [done|].
  pose proof (reachable_well_formed lib _ _ Hreach) as Hwf.
  rewrite step_eq. simpl.
  assert (truthy_opt (first_pending (file_status (callback_state lib e st)))
          = true → processing (callback_state lib e st) = true) as Hcb.
  { destruct e as [[|file files]|password| |]; simpl.
    - by rewrite IH.
    - done.
    - by rewrite IH.
    - destruct (first_pending (file_status st)) as [f|] eqn:Hcur;
        [|by rewrite Hcur].
      destruct (first_pending_get st f Hwf Hcur) as (Hf & r & Hget & Hp).
      rewrite Hget, (truthy_nonempty f Hf). simpl.
      assert (processing st = true) as Hproc
        by (rewrite IH; simpl; by apply truthy_nonempty).
      intros _. destruct (truthy (password_input st)); [|done].
      by destruct (attempt lib r (password_input st)).
    - destruct (first_pending (file_status st)) as [f|] eqn:Hcur;
        [|by rewrite Hcur].
      destruct (first_pending_get st f Hwf Hcur) as (Hf & r & Hget & Hp).
      rewrite Hget, (truthy_nonempty f Hf). simpl.
      intros _. rewrite IH. simpl. by apply truthy_nonempty. }
  unfold tail_state.
  destruct (truthy_opt (first_pending
              (file_status (callback_state lib e st)))) eqn:Htruthy.
  - rewrite (Hcb eq_refl). simpl. by rewrite (Hcb eq_refl), Htruthy.
  - destruct (processing (callback_state lib e st)) eqn:Hproc; simpl;
      by rewrite ?Hproc, Htruthy.
Qed.

(** X3. In every reachable state the processing flag is set exactly when
    a file is pending, that is, when [get_current_file] returns a name:
    the flag is never left set once the last file is resolved, and never
    cleared while a file waits for its password. *)
Theorem processing_iff_pending st :
  reachable lib st →
  (processing st = true ↔ ∃ f, (get_current_file st).1 = Ok (Some f)).
Proof.
  intros Hreach.
  pose proof (reachable_well_formed lib _ _ Hreach) as Hwf.
  rewrite (reachable_processing _ st Hreach), get_current_file_eq. simpl.
  destruct (first_pending (file_status st)) as [f|] eqn:Hcur; simpl.
  - destruct (first_pending_get st f Hwf Hcur) as (Hf & _).
    rewrite (truthy_nonempty f Hf). split; [by exists f|done].
  - split; [done|]. by intros [f ?].
Qed.

(** X7. In a reachable state, a record that is resolved (decrypted or
    excluded) is left exactly as it is by every event that does not
    start a new run: no password attempt and no cancellation touches
    it. *)
Theorem resolution_is_final st f r e :
  reachable lib st →
  Dict.get f (file_status st) = Some r →
  decrypted r || excluded r = true →
  ¬ starts_run e →
  Dict.get f (file_status (step lib e st).2) = Some r.
Proof.
  intros Hreach Hget Hres He.
  pose proof (reachable_well_formed lib _ _ Hreach) as Hwf.
  assert (is_pending r = false) as Hnp.
  { unfold is_pending. destruct (decrypted r), (excluded r);
      simpl in *; try done; by rewrite ?andb_false_r. }
  destruct (step_registry lib (λ e, ¬ starts_run e) e st Hwf He)
    as [_ [Hd _ _|g rg rg' _ Hgetg Hp _ Hd _ _
          |g rg _ Hgetg Hp Hd _ _|files Hne Hrun _ _ _]].
  - by rewrite Hd.
  - rewrite Hd, get_set_ne; [done|]. intros ->. congruence.
  - rewrite Hd, get_set_ne; [done|]. intros ->. congruence.
  - destruct files; [done|]. by destruct Hrun.
Qed.

(** X8. In a reachable state, an event that does not start a new run
    keeps the names of the dictionary and their order, and keeps the
    extension, the encrypted flag and the bytes of every record; a
    decrypted record stays decrypted and an excluded one excluded. *)
Theorem records_keep_identity st e :
  reachable lib st →
  ¬ starts_run e →
  Dict.keys (file_status (step lib e st).2) = Dict.keys (file_status st) ∧
  ∀ f r, Dict.get f (file_status st) = Some r →
    ∃ r', Dict.get f (file_status (step lib e st).2) = Some r' ∧
          extension r' = extension r ∧
          encrypted r' = encrypted r ∧
          file_bytes r' = file_bytes r ∧
          (decrypted r = true → decrypted r' = true) ∧
          (excluded r = true → excluded r' = true).
Proof.
  intros Hreach He.
  pose proof (reachable_well_formed lib _ _ Hreach) as Hwf.
  destruct (step_registry lib (λ e, ¬ starts_run e) e st Hwf He)
    as [_ [Hd _ _|g rg rg' _ Hgetg Hp Hatt Hd _ _
          |g rg _ Hgetg Hp Hd _ _|files Hne Hrun _ _ _]].
  - rewrite Hd. split; [done|]. intros f r Hget. by exists r.
  - rewrite Hd. split.
    { apply keys_set_present, get_is_Some. by rewrite Hgetg. }
    intros f r Hget. destruct (decide (g = f)) as [->|Hne].
    + exists rg'. rewrite get_set_eq. assert (rg = r) as -> by congruence.
      destruct (attempt_Some lib r _ rg' Hatt) as (? & ? & ? & ? & ? & _).
      split_and!; try done. congruence.
    + exists r. by rewrite get_set_ne.
  - rewrite Hd. split.
    { apply keys_set_present, get_is_Some. by rewrite Hgetg. }
    intros f r Hget. destruct (decide (g = f)) as [->|Hne].
    + exists (set_excluded true rg). rewrite get_set_eq.
      assert (rg = r) as -> by congruence. done.
    + exists r. by rewrite get_set_ne.
  - destruct files; [done|]. by destruct Hrun.
Qed.

(** X14. In a reachable state whose current pending file has record [r],
    a non-empty password on which the library call of the record's
    format raises, or on which PyPDF2 answers 0, is handled as a wrong
    password: [handle_submit] returns normally and changes only the
    error message, to the incorrect-password text. *)
Theorem raising_decrypt_is_wrong_password st f r :
  reachable lib st →
  (get_current_file st).1 = Ok (Some f) →
  Dict.get f (file_status st) = Some r →
  truthy (password_input st) = true →
  (extension r = "pdf" →
   PdfReader_decrypt lib (file_bytes r) (password_input st) = None ∨
   PdfReader_decrypt lib (file_bytes r) (password_input st) = Some 0%Z) →
  (extension r ≠ "pdf" →
   OfficeFile_decrypt lib (file_bytes r) (password_input st) = None) →
  handle_submit lib st =
  (Ok (), with_error_message msg_password_incorrect st).
Proof.
  intros Hreach Hcur Hget Hpw Hpdf Hoffice.
  destruct (current_file_pending lib st f Hreach Hcur) as (Hfirst & Hf & _).
  rewrite (handle_submit_eq lib st f r Hfirst Hf Hget), Hpw.
  assert (attempt lib r (password_input st) = None) as ->; [|done].
  unfold attempt, decrypt_pdf, decrypt_office.
  destruct (decide (extension r = "pdf")) as [Hext|Hext].
  - by destruct (Hpdf Hext) as [-> | ->].
  - by rewrite (Hoffice Hext).
Qed.

End progress.

(** ** Whole runs *)

Section runs.
Context (lib : Library).
Implicit Types (st : SessionState) (f : string) (r : FileStatus) (e : event)
  (d : list (string * FileStatus)).

Lemma reachable_step st e : reachable lib st → reachable lib (step lib e st).2.
Proof. intros Hreach. by apply reach_step. Qed.

Lemma tail_state_pending st :
  processing st = truthy_opt (first_pending (file_status st)) →
  tail_state st = st.
Proof.
  intros Hproc. unfold tail_state. rewrite Hproc.
  by destruct (truthy_opt _).
Qed.

Lemma cancel_step st f (rest : list string) :
  reachable lib st →
  pending_files (file_status st) = f :: rest →
  pending_files (file_status (step lib Cancel st).2) = rest ∧
  excluded_files (step lib Cancel st).2 = excluded_files st ++ [f] ∧
  decrypted_files (step lib Cancel st).2 = decrypted_files st.
Proof.
  intros Hreach Hpend.
  pose proof (reachable_well_formed lib _ _ Hreach) as Hwf.
  destruct (pending_files_head st f rest Hwf Hpend)
    as (Hcur & Hf & r & Hget & Hp).
  rewrite step_eq. cbn [snd].
  destruct (tail_state_fields (callback_state lib Cancel st))
    as (-> & -> & -> & _).
  rewrite (callback_state_cancel lib st f r Hwf Hcur Hget). simpl.
  split; [|done].
  apply pending_files_set_head; [apply Hwf|done|].
  apply set_excluded_not_pending.
Qed.

Lemma cancel_all_from (l : list string) st :
  reachable lib st →
  pending_files (file_status st) = l →
  pending_files
    (file_status (run_events lib (replicate (List.length l) Cancel) st)) = [] ∧
  excluded_files (run_events lib (replicate (List.length l) Cancel) st) =
    excluded_files st ++ l ∧
  decrypted_files (run_events lib (replicate (List.length l) Cancel) st) =
    decrypted_files st ∧
  reachable lib (run_events lib (replicate (List.length l) Cancel) st).
Proof.
  revert st. induction l as [|f rest IH]; intros st Hreach Hpend.
  - simpl. by rewrite app_nil_r.
  - destruct (cancel_step st f rest Hreach Hpend) as (Hpend' & Hexc & Hdec).
    destruct (IH (step lib Cancel st).2 (reachable_step st Cancel Hreach) Hpend')
      as (H1 & H2 & H3 & H4).
    change (run_events lib (replicate (List.length (f :: rest)) Cancel) st)
      with (run_events lib (replicate (List.length rest) Cancel)
              (step lib Cancel st).2).
    split_and!; [done| |congruence|done].
    rewrite H2, Hexc. by rewrite <-app_assoc.
Qed.

(** X10. From any reachable state, pressing Cancel once for each pending
    file ends the run: no file is pending, the processing flag is
    cleared, the excluded list has grown by the pending names in their
    dictionary order, and the decrypted list is as before. *)
Theorem cancel_all st :
  reachable lib st →
  pending_files
    (file_status
       (run_events lib
          (replicate (List.length (pending_files (file_status st))) Cancel)
          st)) = [] ∧
  processing
    (run_events lib
       (replicate (List.length (pending_files (file_status st))) Cancel) st)
    = false ∧
  excluded_files
    (run_events lib
       (replicate (List.length (pending_files (file_status st))) Cancel) st)
    = excluded_files st ++ pending_files (file_status st) ∧
  decrypted_files
    (run_events lib
       (replicate (List.length (pending_files (file_status st))) Cancel) st)
    = decrypted_files st.
Proof.
  intros Hreach.
  destruct (cancel_all_from (pending_files (file_status st)) st Hreach eq_refl)
    as (Hpend & Hexc & Hdec & Hreach').
  split_and!; try done.
  rewrite (reachable_processing lib _ _ Hreach').
  unfold first_pending.
  fold (pending_files (file_status (run_events lib
    (replicate (List.length (pending_files (file_status st))) Cancel) st))).
  by rewrite Hpend.
Qed.

Lemma type_password_state st (password : string) :
  reachable lib st →
  (step lib (TypePassword password) st).2 = with_password_input password st.
Proof.
  intros Hreach. rewrite step_eq. cbn [snd]. apply tail_state_pending.
  simpl. apply (reachable_processing lib _ _ Hreach).
Qed.

Lemma failed_round st f r (password : string) :
  reachable lib st →
  first_pending (file_status st) = Some f →
  Dict.get f (file_status st) = Some r →
  fails_on lib r password →
  ∃ message,
    run_events lib (attempts [password]) st =
    with_error_message message (with_password_input password st).
Proof.
  intros Hreach Hcur Hget Hfail.
  change (run_events lib (attempts [password]) st) with
    (step lib Submit (step lib (TypePassword password) st).2).2.
  pose proof (reachable_step st (TypePassword password) Hreach) as Hreach1.
  rewrite (type_password_state st password Hreach) in *.
  pose proof (reachable_well_formed lib _ _ Hreach1) as Hwf1.
  rewrite step_eq. cbn [snd].
  rewrite (callback_state_submit lib _ f r Hwf1 Hcur Hget).
  cbn [password_input with_password_input].
  assert (∀ message,
    tail_state (with_error_message message (with_password_input password st))
    = with_error_message message (with_password_input password st)) as Htail.
  { intros message. apply tail_state_pending. simpl.
    apply (reachable_processing lib _ _ Hreach). }
  destruct (truthy password) eqn:Hpw.
  - destruct Hfail as [Hfail| ->]; [congruence|].
    exists msg_password_incorrect. apply Htail.
  - exists msg_password_required. apply Htail.
Qed.

Lemma successful_round st f r r' (password : string) :
  reachable lib st →
  first_pending (file_status st) = Some f →
  Dict.get f (file_status st) = Some r →
  truthy password = true →
  attempt lib r password = Some r' →
  run_events lib (attempts [password]) st =
  tail_state
    {| file_status := Dict.set f r' (file_status st);
       processing := processing st;
       decrypted_files := decrypted_files st ++ [f];
       excluded_files := excluded_files st;
       error_message := ""; password_input := "" |}.
Proof.
  intros Hreach Hcur Hget Hpw Hatt.
  change (run_events lib (attempts [password]) st) with
    (step lib Submit (step lib (TypePassword password) st).2).2.
  pose proof (reachable_step st (TypePassword password) Hreach) as Hreach1.
  rewrite (type_password_state st password Hreach) in *.
  pose proof (reachable_well_formed lib _ _ Hreach1) as Hwf1.
  rewrite step_eq. cbn [snd].
  rewrite (callback_state_submit lib _ f r Hwf1 Hcur Hget).
  cbn [password_input with_password_input]. by rewrite Hpw, Hatt.
Qed.

Lemma run_events_app (events1 events2 : list event) st :
  run_events lib (events1 ++ events2) st =
  run_events lib events2 (run_events lib events1 st).
Proof. unfold run_events. by rewrite foldl_app. Qed.

Lemma run_events_reachable (events : list event) st :
  reachable lib st → reachable lib (run_events lib events st).
Proof.
  revert st. induction events as [|e events IH]; intros st Hreach; [done|].
  apply IH. by apply reachable_step.
Qed.

(** X11. In a reachable state whose current pending file has record [r],
    any number of failed attempts (nothing typed, or a password the
    helper rejects) followed by a password that opens the file leaves
    the same session state as that password submitted at once: there is
    no attempt counter and no lockout, and a failure leaves no trace. *)
Theorem retries_leave_no_trace st f r (wrong : list string) (good : string) :
  reachable lib st →
  (get_current_file st).1 = Ok (Some f) →
  Dict.get f (file_status st) = Some r →
  Forall (fails_on lib r) wrong →
  truthy good = true →
  is_Some (attempt lib r good) →
  run_events lib (attempts wrong ++ attempts [good]) st =
  run_events lib (attempts [good]) st.
Proof.
  intros Hreach Hcur Hget Hwrong Hgood [r' Hatt].
  rewrite get_current_file_eq in Hcur. simpl in Hcur. injection Hcur as Hcur.
  revert st Hreach Hcur Hget.
  induction Hwrong as [|password wrong Hfail _ IH]; intros st Hreach Hcur Hget;
    [done|].
  change (attempts (password :: wrong))
    with (attempts [password] ++ attempts wrong).
  rewrite <-app_assoc, run_events_app.
  destruct (failed_round st f r password Hreach Hcur Hget Hfail)
    as [message Hround].
  pose proof (run_events_reachable (attempts [password]) st Hreach) as Hreach'.
  rewrite Hround in *.
  rewrite IH by done.
  rewrite (successful_round _ f r r' good Hreach') by done.
  by rewrite (successful_round st f r r' good Hreach).
Qed.

(** X1. Pressing the run button with files selected leaves a session
    state that does not depend on the state before: nothing of an
    earlier run survives. With no file selected the session state is
    left as it is. *)
Theorem run_forgets_previous_state (files : list UploadedFile) st st' :
  files ≠ [] →
  (run_button lib files st).2 = (run_button lib files st').2 ∧
  (step lib (Run files) st).2 = (step lib (Run files) st').2 ∧
  run_button lib [] st = (Ok (), st).
Proof.
  intros Hne. split_and!; [| |done].
  - by rewrite !run_button_eq.
  - rewrite !step_eq. by destruct files.
Qed.

Lemma ingested_status_fresh (files : list UploadedFile) d :
  NoDup (name <$> files) →
  (∀ file, file ∈ files → name file ∉ Dict.keys d) →
  ingested_status lib files d =
  d ++ ((λ file, (name file, ingested_record lib file)) <$> files).
Proof.
  revert d. induction files as [|file files IH]; intros d Hnd Hfresh.
  - simpl. by rewrite app_nil_r.
  - rewrite fmap_cons in Hnd. apply NoDup_cons in Hnd as [Hfile Hnd].
    change (ingested_status lib (file :: files) d) with
      (ingested_status lib files
         (Dict.set (name file) (ingested_record lib file) d)).
    rewrite set_absent by (apply Hfresh, elem_of_cons; by left).
    rewrite IH; [by rewrite <-app_assoc|done|].
    intros file' Hin. unfold Dict.keys.
    rewrite fmap_app, not_elem_of_app. split.
    + apply Hfresh, elem_of_cons. by right.
    + simpl. rewrite list_elem_of_singleton. intros Heq. apply Hfile.
      rewrite <-Heq. apply list_elem_of_fmap. by exists file'.
Qed.

Lemma pending_files_ingested (files : list UploadedFile) :
  pending_files ((λ file, (name file, ingested_record lib file)) <$> files) =
  name <$> filter (λ file, detected_encrypted lib file = true) files.
Proof.
  unfold pending_files. induction files as [|file files IH]; [done|].
  rewrite fmap_cons.
  assert (is_pending (ingested_record lib file) = detected_encrypted lib file)
    as Hp.
  { unfold is_pending. simpl. by destruct (detected_encrypted lib file). }
  destruct (detected_encrypted lib file) eqn:Henc.
  - rewrite filter_cons_True by (simpl; by rewrite Hp).
    rewrite (filter_cons_True (λ file, detected_encrypted lib file = true))
      by done.
    by rewrite !fmap_cons, IH.
  - rewrite filter_cons_False by (simpl; rewrite Hp; by intros ?).
    rewrite (filter_cons_False (λ file, detected_encrypted lib file = true))
      by congruence.
    done.
Qed.

(** X2. When the names of the batch are pairwise different, the run
    button leaves one record for each file, in upload order, each built
    from its own file; the decrypted list holds the names of the files
    detected as not encrypted and the pending files are those detected
    as encrypted, both in upload order; the excluded list, the error
    message and the password input are empty. *)
Theorem ingest_unique_names_table (files : list UploadedFile) st :
  files ≠ [] →
  NoDup (name <$> files) →
  ∃ st',
    run_button lib files st = (Ok (), st') ∧
    file_status st' =
      (λ file, (name file, ingested_record lib file)) <$> files ∧
    decrypted_files st' =
      name <$> filter (λ file, detected_encrypted lib file = false) files ∧
    pending_files (file_status st') =
      name <$> filter (λ file, detected_encrypted lib file = true) files ∧
    excluded_files st' = [] ∧
    error_message st' = "" ∧
    password_input st' = "".
Proof.
  intros Hne Hnd. eexists. split; [by apply run_button_eq|].
  assert (file_status (ingested_state lib files) =
          (λ file, (name file, ingested_record lib file)) <$> files) as Hd.
  { simpl. rewrite ingested_status_fresh; [done..|].
    intros file _. apply not_elem_of_nil. }
  split_and!; try done.
  rewrite Hd. apply pending_files_ingested.
Qed.

End runs.

(** ** The names of a batch with pairwise different names *)

Section partition.
Context (lib : Library).
Implicit Types (st : SessionState) (f : string) (r : FileStatus) (e : event)
  (d : list (string * FileStatus)).

Lemma elem_of_pending_files d f :
  NoDup (Dict.keys d) →
  f ∈ pending_files d ↔ ∃ r, Dict.get f d = Some r ∧ is_pending r = true.
Proof.
  intros Hnd. unfold pending_files. rewrite list_elem_of_fmap. split.
  - intros ([g r] & -> & [Hp Hin]%list_elem_of_filter). simpl in *.
    exists r. split; [by apply elem_of_get|by apply Is_true_true].
  - intros (r & Hget & Hp). exists (f, r). split; [done|].
    apply list_elem_of_filter. split; [by apply Is_true_true|].
    by apply get_Some_elem_of.
Qed.

Lemma NoDup_pending_files d : NoDup (Dict.keys d) → NoDup (pending_files d).
Proof.
  intros Hnd. apply (sublist_NoDup _ (Dict.keys d)); [done|].
  unfold pending_files, Dict.keys. apply fmap_sublist, sublist_filter.
Qed.

Lemma NoDup_ingested_names (files : list UploadedFile) :
  NoDup (name <$> files) → NoDup (ingested_names lib files).
Proof.
  intros Hnd. apply (sublist_NoDup _ (name <$> files)); [done|].
  unfold ingested_names. apply fmap_sublist, sublist_filter.
Qed.

Lemma reachable_unique_NoDup st :
  reachable_by lib unique_names st →
  NoDup (decrypted_files st) ∧ NoDup (excluded_files st).
Proof.
  induction 1 as [|st e Hreach [IHdec IHexc] He].
  - split; apply NoDup_nil_2.
  - pose proof (reachable_well_formed lib _ _ Hreach) as Hwf.
    destruct (reachable_accounted lib st Hreach) as [Ha Hb _].
    destruct (step_registry lib unique_names e st Hwf He)
      as [_ [_ Hdec Hexc|f r r' _ Hget Hp _ _ Hdec Hexc
            |f r _ Hget Hp _ Hdec Hexc|files _ Hnd _ Hdec Hexc]];
      rewrite Hdec, Hexc.
    + done.
    + split; [|done]. apply is_pending_true in Hp as (_ & Hrd & _).
      apply NoDup_app. split_and!; [done| |apply NoDup_singleton].
      intros g Hg ->%list_elem_of_singleton.
      apply Ha in Hg as (r0 & Hget0 & Hdec0). congruence.
    + split; [done|]. apply is_pending_true in Hp as (_ & _ & Hre).
      apply NoDup_app. split_and!; [done| |apply NoDup_singleton].
      intros g Hg ->%list_elem_of_singleton.
      apply Hb in Hg as (r0 & Hget0 & Hexc0). congruence.
    + split; [by apply NoDup_ingested_names|apply NoDup_nil_2].
Qed.

Lemma names_permutation st :
  reachable_by lib unique_names st →
  decrypted_files st ++ excluded_files st ++ pending_files (file_status st)
    ≡ₚ Dict.keys (file_status st).
Proof.
  intros Hreach.
  pose proof (reachable_well_formed lib _ _ Hreach) as Hwf.
  destruct (reachable_accounted lib st Hreach) as [Ha Hb Hc].
  destruct (reachable_unique_NoDup st Hreach) as [Hdec Hexc].
  pose proof (reachable_records_ok lib _ st Hreach) as Hok.
  apply NoDup_Permutation.
  - apply NoDup_app. split_and!; [done| |].
    + intros f (r & Hget & Hd)%Ha [Hin|Hin]%elem_of_app.
      * apply Hb in Hin as (r0 & Hget0 & He). simplify_eq.
        by apply (Hc f r).
      * apply elem_of_pending_files in Hin as (r0 & Hget0 & Hp);
          [|apply Hwf].
        apply is_pending_true in Hp as (_ & Hd0 & _). congruence.
    + apply NoDup_app. split_and!; [done| |].
      * intros f (r & Hget & He)%Hb Hin.
        apply elem_of_pending_files in Hin as (r0 & Hget0 & Hp);
          [|apply Hwf].
        apply is_pending_true in Hp as (_ & _ & He0). congruence.
      * apply NoDup_pending_files, Hwf.
  - apply Hwf.
  - intros f. rewrite !elem_of_app, Ha, Hb.
    rewrite (elem_of_pending_files _ f (wf_keys _ Hwf)).
    rewrite <-(get_is_Some f (file_status st)). split.
    + intros [(r & -> & _)|[(r & -> & _)|(r & -> & _)]]; by eexists.
    + intros [r Hget].
      destruct (decrypted r) eqn:Hd; [left; by exists r|].
      destruct (excluded r) eqn:He; [right; left; by exists r|].
      right. right. exists r. split; [done|].
      apply is_pending_true. split_and!; [|done..].
      destruct (encrypted r) eqn:Henc; [done|].
      destruct (ok_plain _ _ _ (Hok f r Hget) Henc) as (? & _). congruence.
Qed.

(** X12. In every state reached with batches of pairwise different
    names, the decrypted list, the excluded list and the pending files
    together are a rearrangement of the names of the dictionary: every
    uploaded name is in exactly one of the three, exactly once. Once no
    file is pending, the two lists of the report together are a
    rearrangement of the uploaded names. *)
Theorem names_are_partitioned st :
  reachable_by lib unique_names st →
  decrypted_files st ++ excluded_files st ++ pending_files (file_status st)
    ≡ₚ Dict.keys (file_status st) ∧
  (pending_files (file_status st) = [] →
   decrypted_files st ++ excluded_files st ≡ₚ Dict.keys (file_status st)).
Proof.
  intros Hreach. pose proof (names_permutation st Hreach) as Hperm.
  split; [done|]. intros Hnone. rewrite Hnone in Hperm.
  by rewrite app_nil_r in Hperm.
Qed.

End partition.

(** ** The extension of a file name *)

Section extensions.
Implicit Types (s w : string) (c : ascii).

Lemma split_dot_pieces_no_dot s :
  contains_dot s = false → split_dot_pieces s = (s, []).
Proof.
  induction s as [|c s IH]; [done|]. simpl.
  destruct (decide (c = "."%char)); [done|].
  intros Hs. by rewrite (IH Hs).
Qed.

Lemma contains_dot_pieces s :
  contains_dot s = true → (split_dot_pieces s).2 ≠ [].
Proof.
  induction s as [|c s IH]; [done|]. simpl.
  destruct (split_dot_pieces s) as [w ws].
  destruct (decide (c = "."%char)); [done|]. exact IH.
Qed.

Lemma last_split_dot_cons c s :
  contains_dot s = true →
  last (split_dot (String c s)) = last (split_dot s).
Proof.
  intros Hs%contains_dot_pieces. unfold split_dot. simpl.
  destruct (split_dot_pieces s) as [w ws]. simpl in Hs.
  destruct ws as [|w' ws]; [done|].
  by destruct (decide (c = "."%char)).
Qed.

Lemma contains_dot_app s1 s2 :
  contains_dot s2 = true → contains_dot (s1 +:+ s2) = true.
Proof.
  intros Hs2. induction s1 as [|c s1 IH]; [done|]. simpl.
  by destruct (decide (c = "."%char)).
Qed.

Lemma split_dot_dot s : split_dot (String "." s) = "" :: split_dot s.
Proof. unfold split_dot. simpl. by destruct (split_dot_pieces s). Qed.

Lemma extension_of_after_dot (base ext : string) :
  contains_dot ext = false →
  extension_of (base +:+ "." +:+ ext) = lower ext.
Proof.
  intros Hext. unfold extension_of. f_equal.
  induction base as [|c base IH].
  - change ("" +:+ "." +:+ ext) with (String "." ext).
    rewrite split_dot_dot. unfold split_dot.
    by rewrite (split_dot_pieces_no_dot ext Hext).
  - change (String c base +:+ "." +:+ ext)
      with (String c (base +:+ "." +:+ ext)).
    rewrite last_split_dot_cons; [done|].
    by apply contains_dot_app.
Qed.

Lemma split_dot_pieces_dot_free s :
  contains_dot (split_dot_pieces s).1 = false ∧
  Forall (λ w, contains_dot w = false) (split_dot_pieces s).2.
Proof.
  induction s as [|c s [IH1 IH2]]; [done|]. simpl.
  destruct (split_dot_pieces s) as [w ws]. simpl in *.
  destruct (decide (c = "."%char)) as [->|Hc]; simpl.
  - split; [done|]. by constructor.
  - split; [|done]. by rewrite decide_False.
Qed.

Lemma last_split_dot_free s :
  contains_dot (default "" (last (split_dot s))) = false.
Proof.
  destruct (split_dot_pieces_dot_free s) as [H1 H2]. unfold split_dot.
  destruct (split_dot_pieces s) as [w ws]. simpl in *.
  assert (Forall (λ w, contains_dot w = false) (w :: ws)) as Hall
    by by constructor.
  destruct (last (w :: ws)) as [p|] eqn:Hlast; [|done].
  simpl. rewrite Forall_forall in Hall. apply Hall.
  apply last_Some in Hlast as [l ->]. apply elem_of_app. right.
  apply list_elem_of_singleton. done.
Qed.

Lemma lower_ascii_dot c : lower_ascii c = "."%char ↔ c = "."%char.
Proof.
  destruct c as [[] [] [] [] [] [] [] []]; vm_compute; split; congruence.
Qed.

Lemma contains_dot_lower s : contains_dot (lower s) = contains_dot s.
Proof.
  induction s as [|c s IH]; [done|]. simpl.
  destruct (decide (c = "."%char)) as [->|Hc].
  - by rewrite decide_True.
  - rewrite decide_False; [done|]. by rewrite lower_ascii_dot.
Qed.

Lemma extension_of_no_dot s :
  contains_dot s = false → extension_of s = lower s.
Proof.
  intros Hs. unfold extension_of, split_dot.
  by rewrite (split_dot_pieces_no_dot s Hs).
Qed.

(** A name is its last piece, or ends in a dot followed by it. *)
Lemma ends_in_last_piece s : ends_in s (default "" (last (split_dot s))).
Proof.
  induction s as [|c s IH]; [by left|].
  destruct (contains_dot s) eqn:Hdot.
  - rewrite last_split_dot_cons by done.
    destruct IH as [Hs|[base Hs]].
    + pose proof (last_split_dot_free s) as Hfree. rewrite <-Hs in Hfree.
      congruence.
    + right. exists (String c base).
      change (String c base +:+ "." +:+ default "" (last (split_dot s)))
        with (String c (base +:+ "." +:+ default "" (last (split_dot s)))).
      by f_equal.
  - destruct (decide (c = "."%char)) as [->|Hc].
    + rewrite split_dot_dot. unfold split_dot.
      rewrite (split_dot_pieces_no_dot s Hdot). simpl.
      right. by exists "".
    + unfold split_dot. simpl.
      rewrite (split_dot_pieces_no_dot s Hdot).
      rewrite decide_False by done. by left.
Qed.

Lemma case_variant_char_lower c (t : ascii) :
  case_variant_char c t = true → lower_ascii t = t → lower_ascii c = t.
Proof.
  unfold case_variant_char.
  intros [Heq|Hup]%orb_true_iff Hfix.
  - by apply bool_decide_eq_true in Heq as ->.
  - apply andb_true_iff in Hup as [[Hlo Hhi]%andb_true_iff Hshift].
    apply N.leb_le in Hlo. apply N.leb_le in Hhi. apply N.eqb_eq in Hshift.
    unfold lower_ascii.
    assert ((65 <=? N_of_ascii c)%N = true) as -> by (apply N.leb_le; lia).
    assert ((N_of_ascii c <=? 90)%N = true) as -> by (apply N.leb_le; lia).
    simpl. rewrite Hshift. apply ascii_N_embedding.
Qed.

Lemma lower_case_variant_char c : case_variant_char c (lower_ascii c) = true.
Proof. by destruct c as [[] [] [] [] [] [] [] []]. Qed.

Lemma case_variant_lower s (t : string) :
  case_variant s t = true → lower t = t → lower s = t.
Proof.
  revert t. induction s as [|c s IH]; intros [|d t]; try done.
  simpl. intros [Hc Hs]%andb_true_iff [= Hd Ht].
  by rewrite (case_variant_char_lower c d Hc Hd), (IH t Hs Ht).
Qed.

Lemma lower_case_variant s : case_variant s (lower s) = true.
Proof.
  induction s as [|c s IH]; [done|]. simpl.
  by rewrite lower_case_variant_char, IH.
Qed.

Lemma supported_extension_plain (target : string) :
  target ∈ ["pdf"; "docx"; "xlsx"; "pptx"] →
  lower target = target ∧ contains_dot target = false.
Proof.
  rewrite !elem_of_cons, elem_of_nil.
  by intros [->|[->|[->|[->|[]]]]].
Qed.

(** A name that ends in a case variant of a supported extension has that
    extension. *)
Lemma extension_of_variant (file_name ext target : string) :
  target ∈ ["pdf"; "docx"; "xlsx"; "pptx"] →
  case_variant ext target = true →
  ends_in file_name ext →
  extension_of file_name = target.
Proof.
  intros [Hfix Hplain]%supported_extension_plain Hvariant Hends.
  pose proof (case_variant_lower ext target Hvariant Hfix) as Hlower.
  assert (contains_dot ext = false) as Hext
    by by rewrite <-contains_dot_lower, Hlower.
  destruct Hends as [->|[base ->]].
  - by rewrite extension_of_no_dot.
  - by rewrite extension_of_after_dot.
Qed.

(** A name with a given extension ends in a case variant of it. *)
Lemma extension_of_inv (file_name target : string) :
  extension_of file_name = target →
  ∃ ext, case_variant ext target = true ∧ ends_in file_name ext.
Proof.
  intros <-. exists (default "" (last (split_dot file_name))).
  split; [apply lower_case_variant|apply ends_in_last_piece].
Qed.

(** X15. The extension computed for a file name is one of "pdf", "docx",
    "xlsx", "pptx" exactly when the name is, or ends in a dot followed
    by, that extension written in any mix of capital and small letters:
    "Report.v2.PDF" and "PdF" have the extension "pdf", and nothing else
    does. On these names the lower-casing of the model and [str.lower]
    agree. *)
Theorem extension_recognised_iff (file_name target : string) :
  target ∈ ["pdf"; "docx"; "xlsx"; "pptx"] →
  extension_of file_name = target ↔
  ∃ ext, case_variant ext target = true ∧ ends_in file_name ext.
Proof.
  intros Htarget. split.
  - apply extension_of_inv.
  - intros (ext & Hvariant & Hends).
    by apply (extension_of_variant file_name ext target).
Qed.

End extensions.

(** ** Which detection a file gets *)

Section detection.
Context (lib : Library).
Implicit Types (file : UploadedFile).

(** X16. The detection run on an uploaded file is chosen by its name,
    whatever the case of the letters: a name that is, or ends in a dot
    followed by, a case variant of "pdf" gets the PDF detection; one that
    ends so in "docx", "xlsx" or "pptx" gets the office detection; and a
    name that ends in no case variant of the four is recorded as not
    encrypted whatever its bytes. *)
Theorem detection_chosen_by_name file :
  (∀ ext, case_variant ext "pdf" = true → ends_in (name file) ext →
          detected_encrypted lib file = is_pdf_encrypted lib (data file)) ∧
  (∀ ext target,
     target ∈ ["docx"; "xlsx"; "pptx"] →
     case_variant ext target = true → ends_in (name file) ext →
     detected_encrypted lib file = is_office_encrypted lib (data file)) ∧
  ((∀ ext target,
      target ∈ ["pdf"; "docx"; "xlsx"; "pptx"] →
      ends_in (name file) ext → case_variant ext target = false) →
   detected_encrypted lib file = false).
Proof.
  unfold detected_encrypted. split_and!.
  - intros ext Hvariant Hends.
    rewrite (extension_of_variant (name file) ext "pdf");
      [by rewrite decide_True| |done..].
    apply elem_of_cons. by left.
  - intros ext target Htarget Hvariant Hends.
    rewrite (extension_of_variant (name file) ext target);
      [| |done..].
    + rewrite decide_False.
      * by rewrite decide_True.
      * intros ->. rewrite !elem_of_cons, elem_of_nil in Htarget.
        by destruct Htarget as [?|[?|[?|[]]]].
    + apply elem_of_cons. by right.
  - intros Hnone.
    assert (extension_of (name file) ∉ ["pdf"; "docx"; "xlsx"; "pptx"])
      as Hunsupported.
    { intros Hin.
      destruct (extension_of_inv (name file) _ eq_refl)
        as (ext & Hvariant & Hends).
      by rewrite (Hnone ext _ Hin Hends) in Hvariant. }
    rewrite decide_False.
    + rewrite decide_False; [done|]. intros Hin. apply Hunsupported.
      apply elem_of_cons. by right.
    + intros Hpdf. apply Hunsupported. rewrite Hpdf.
      apply elem_of_cons. by left.
Qed.

End detection.

(** ** What the user sees *)

Section views.
Context (lib : Library).
Implicit Types (st : SessionState) (f : string) (r : FileStatus) (e : event)
  (d : list (string * FileStatus)).

Lemma password_dialog_eq st :
  password_dialog st =
  (Ok (match first_pending (file_status st) with
       | Some f =>
           if truthy f then Rendered (dialog_elements f st) else Rerun
       | None => Rerun
       end), st).
Proof.
  unfold password_dialog, bind at 1. rewrite get_current_file_eq.
  destruct (first_pending (file_status st)) as [f|]; [|done].
  by destruct (truthy f).
Qed.

Lemma script_tail_view_eq st :
  script_tail_view st =
  (Ok (Rendered
         (if processing st then
            match first_pending (file_status st) with
            | Some f =>
                if truthy f then dialog_elements f st
                else report_elements (with_processing false st)
            | None => report_elements (with_processing false st)
            end
          else [])),
   tail_state st).
Proof.
  unfold script_tail_view, tail_state, bind at 1, gets at 1.
  destruct (processing st) eqn:Hproc; simpl; [|done].
  unfold bind at 1. rewrite get_current_file_eq.
  destruct (first_pending (file_status st)) as [f|] eqn:Hcur; simpl; [|done].
  destruct (truthy f) eqn:Hf; simpl; [|done].
  rewrite password_dialog_eq, Hcur, Hf. done.
Qed.

Lemma event_view_eq e st :
  event_view lib e st = script_tail_view (callback_state lib e st).
Proof.
  destruct e as [files|password| |]; unfold event_view.
  - destruct files as [|file files].
    + by rewrite (bind_ok _ _ _ _ _ (run_button_empty lib st)).
    + by rewrite (bind_ok _ _ _ () (ingested_state lib (file :: files)))
        by by apply run_button_eq.
  - done.
  - by rewrite (bind_ok _ _ _ _ _ (handle_submit_callback lib st)).
  - by rewrite (bind_ok _ _ _ _ _ (handle_cancel_callback lib st)).
Qed.

Lemma well_formed_file_status st st' :
  file_status st' = file_status st → well_formed st → well_formed st'.
Proof. intros Hd [Hkeys Hnamed]. split; by rewrite Hd. Qed.

Lemma callback_state_well_formed e st :
  well_formed st → well_formed (callback_state lib e st).
Proof.
  intros Hwf.
  apply (well_formed_file_status (step lib e st).2).
  - by rewrite file_status_step.
  - destruct (step_registry lib (λ _, True) e st Hwf I) as [_ Hstep].
    by eapply registry_step_well_formed.
Qed.

Lemma first_pending_head d : first_pending d = head (pending_files d).
Proof. done. Qed.

Lemma dialog_for_next st (next : list string) :
  well_formed st →
  pending_files (file_status st) = next →
  (password_dialog st).1 =
  Ok (match next with
      | g :: _ => Rendered (dialog_elements g st)
      | [] => Rerun
      end).
Proof.
  intros Hwf Hpend. rewrite password_dialog_eq. simpl.
  rewrite first_pending_head, Hpend. destruct next as [|g next]; [done|].
  destruct (pending_files_head st g next Hwf Hpend) as (_ & Hg & _).
  simpl. by rewrite (truthy_nonempty g Hg).
Qed.

(** X17. After a failed attempt with a non-empty password the dialog is
    shown again for the same file: its heading names the file, it shows
    the incorrect-password text as an error, and the password field
    still holds what was typed. *)
Theorem dialog_after_wrong_password st f r :
  reachable lib st →
  (get_current_file st).1 = Ok (Some f) →
  Dict.get f (file_status st) = Some r →
  truthy (password_input st) = true →
  attempt lib r (password_input st) = None →
  (password_dialog (handle_submit lib st).2).1 =
  Ok (Rendered
        [Markdown (msg_dialog_heading f);
         ErrorBox msg_password_incorrect;
         TextInput "パスワード" "password_input" (password_input st);
         Button "Submit" "submit_password" Submit;
         Button "Cancel" "cancel_password" Cancel]).
Proof.
  intros Hreach Hcur Hget Hpw Hatt.
  destruct (current_file_pending lib st f Hreach Hcur) as (Hfirst & Hf & _).
  rewrite (handle_submit_eq lib st f r Hfirst Hf Hget), Hpw, Hatt.
  rewrite password_dialog_eq. simpl.
  by rewrite Hfirst, (truthy_nonempty f Hf).
Qed.

(** X18. In a reachable state whose pending files are [f] followed by
    [rest]: after Cancel the dialog function asks for a rerun of the
    script when [rest] is empty, and otherwise shows the dialog of the
    head of [rest] with the cancellation notice of [f] as its error and
    an empty password field; after a password that opens [f] it does the
    same without any error. *)
Theorem dialog_after_resolution st f (rest : list string) :
  reachable lib st →
  pending_files (file_status st) = f :: rest →
  (password_dialog (handle_cancel st).2).1 =
    Ok (match rest with
        | g :: _ =>
            Rendered
              [Markdown (msg_dialog_heading g);
               ErrorBox (msg_cancelled f);
               TextInput "パスワード" "password_input" "";
               Button "Submit" "submit_password" Submit;
               Button "Cancel" "cancel_password" Cancel]
        | [] => Rerun
        end) ∧
  (∀ r, Dict.get f (file_status st) = Some r →
        truthy (password_input st) = true →
        is_Some (attempt lib r (password_input st)) →
        (password_dialog (handle_submit lib st).2).1 =
          Ok (match rest with
              | g :: _ =>
                  Rendered
                    [Markdown (msg_dialog_heading g);
                     TextInput "パスワード" "password_input" "";
                     Button "Submit" "submit_password" Submit;
                     Button "Cancel" "cancel_password" Cancel]
              | [] => Rerun
              end)).
Proof.
  intros Hreach Hpend.
  pose proof (reachable_well_formed lib _ _ Hreach) as Hwf.
  destruct (resolution_pending_files lib st f rest Hreach Hpend)
    as (Hcancel & Hsubmit).
  destruct (pending_files_head st f rest Hwf Hpend)
    as (Hcur & Hf & r & Hget & Hp).
  split.
  - rewrite (dialog_for_next _ rest); [|
      rewrite (handle_cancel_callback lib);
      by apply callback_state_well_formed|done].
    destruct rest as [|g rest]; [done|].
    rewrite (handle_cancel_callback lib). cbn [snd].
    rewrite (callback_state_cancel lib st f r Hwf Hcur Hget).
    unfold dialog_elements. by simpl.
  - intros r0 Hget0 Hpw [r' Hatt]. assert (r0 = r) as -> by congruence.
    pose proof (Hsubmit r Hget Hpw (ex_intro _ r' Hatt)) as Hpend'.
    rewrite (dialog_for_next _ rest); [|
      rewrite handle_submit_callback;
      by apply callback_state_well_formed|done].
    destruct rest as [|g rest]; [done|].
    rewrite handle_submit_callback. cbn [snd].
    by rewrite (callback_state_submit lib st f r Hwf Hcur Hget), Hpw, Hatt.
Qed.

Lemma written_names_writes (l : list string) : written_names (Write <$> l) = l.
Proof.
  unfold written_names. induction l as [|x l IH]; [done|].
  rewrite fmap_cons. simpl. f_equal. exact IH.
Qed.

Lemma written_names_report st :
  written_names (report_elements st) = decrypted_files st ++ excluded_files st.
Proof.
  unfold report_elements, written_names. rewrite !omap_app.
  fold written_names. simpl.
  destruct (decrypted_files st) as [|x l] eqn:Hdec,
    (excluded_files st) as [|y k] eqn:Hexc; simpl;
    rewrite ?written_names_writes; try done.
  all: by rewrite ?app_nil_r.
Qed.

Lemma dialog_elements_no_success f st (body : string) :
  Success body ∉ dialog_elements f st.
Proof.
  unfold dialog_elements. intros Hin.
  destruct (truthy (error_message st)); simpl in Hin;
    repeat (apply elem_of_cons in Hin as [Hin|Hin]; [done|]);
    by apply elem_of_nil in Hin.
Qed.

(** X19. After any event in a state reached with batches of pairwise
    different names, the end of the script renders without an exception
    and without asking for a rerun, and leaves the session state of the
    event. When what it shows contains the completion message, no file is
    pending, the processing flag is cleared, and the names written out
    are the decrypted list followed by the excluded list, which together
    are a rearrangement of the uploaded names: the report names every
    file exactly once. *)
Theorem report_names_every_file_once st e :
  reachable_by lib unique_names st →
  unique_names e →
  ∃ elements,
    event_view lib e st = (Ok (Rendered elements), (step lib e st).2) ∧
    (Success msg_all_done ∈ elements →
     pending_files (file_status (step lib e st).2) = [] ∧
     processing (step lib e st).2 = false ∧
     written_names elements =
       decrypted_files (step lib e st).2 ++ excluded_files (step lib e st).2 ∧
     written_names elements ≡ₚ Dict.keys (file_status (step lib e st).2)).
Proof.
  intros Hreach He.
  pose proof (reachable_well_formed lib _ _ Hreach) as Hwf.
  pose proof (callback_state_well_formed e st Hwf) as Hwf1.
  pose proof (reach_step lib unique_names st e Hreach He) as Hreach'.
  eexists. split.
  { rewrite event_view_eq, script_tail_view_eq. by rewrite step_eq. }
  rewrite step_eq in *. cbn [snd] in *.
  set (cb := callback_state lib e st) in *.
  intros Hsuccess.
  assert (processing cb = true ∧ first_pending (file_status cb) = None ∧
          Success msg_all_done ∈ report_elements (with_processing false cb))
    as (Hproc & Hcur & _).
  { destruct (processing cb); [|by apply elem_of_nil in Hsuccess].
    destruct (first_pending (file_status cb)) as [f|] eqn:Hcur; [|done].
    destruct (first_pending_get cb f Hwf1 Hcur) as (Hf & _).
    rewrite (truthy_nonempty f Hf) in Hsuccess.
    by apply dialog_elements_no_success in Hsuccess. }
  rewrite Hproc, Hcur.
  assert (tail_state cb = with_processing false cb) as Htail.
  { unfold tail_state. by rewrite Hproc, Hcur. }
  rewrite Htail in *.
  assert (pending_files (file_status (with_processing false cb)) = [])
    as Hnone.
  { simpl. rewrite first_pending_head in Hcur. by apply head_None. }
  split_and!; [done|done|apply written_names_report|].
  rewrite written_names_report.
  pose proof (names_permutation lib _ Hreach') as Hperm.
  rewrite Hnone in Hperm. by rewrite app_nil_r in Hperm.
Qed.

(** X20. Once the run is over (the processing flag is cleared), an event
    that does not start a new run shows neither a dialog nor the report:
    the report is on the page only for the script run that ends the run,
    and the next interaction clears it. The registry is left as it was. *)
Theorem report_shown_once st e :
  reachable lib st →
  processing st = false →
  ¬ starts_run e →
  event_view lib e st = (Ok (Rendered []), (step lib e st).2) ∧
  file_status (step lib e st).2 = file_status st ∧
  decrypted_files (step lib e st).2 = decrypted_files st ∧
  excluded_files (step lib e st).2 = excluded_files st ∧
  processing (step lib e st).2 = false.
Proof.
  intros Hreach Hproc He.
  pose proof (reachable_processing lib _ _ Hreach) as Hinv.
  pose proof (reachable_well_formed lib _ _ Hreach) as Hwf.
  assert (first_pending (file_status st) = None) as Hcur.
  { destruct (first_pending (file_status st)) as [f|] eqn:Hcur; [|done].
    destruct (first_pending_get st f Hwf Hcur) as (Hf & _).
    rewrite Hproc in Hinv. simpl in Hinv.
    by rewrite (truthy_nonempty f Hf) in Hinv. }
  destruct (callback_state_idle lib e st Hcur He) as (Hd & Hdec & Hexc & Hp).
  rewrite event_view_eq, script_tail_view_eq, step_eq. cbn [snd].
  rewrite Hp, Hproc.
  assert (tail_state (callback_state lib e st) = callback_state lib e st)
    as ->.
  { unfold tail_state. by rewrite Hp, Hproc. }
  by rewrite Hp.
Qed.

End views.

(** ** Which files get a dialog *)

Section prompts.
Context (lib : Library).
Implicit Types (st : SessionState) (f : string) (r : FileStatus).

(** X21. In a reachable state the file the dialog asks about has one of
    the four extensions, and the detection helper of its format reports
    the bytes of its record as encrypted: no password is ever asked for a
    file of another kind, or for one its library reads as unprotected or
    fails to read. *)
Theorem prompt_only_for_detected_files st f :
  reachable lib st →
  (get_current_file st).1 = Ok (Some f) →
  ∃ r,
    Dict.get f (file_status st) = Some r ∧
    extension r = extension_of f ∧
    extension r ∈ ["pdf"; "docx"; "xlsx"; "pptx"] ∧
    (extension r = "pdf" → is_pdf_encrypted lib (file_bytes r) = true) ∧
    (extension r ≠ "pdf" → is_office_encrypted lib (file_bytes r) = true).
Proof.
  intros Hreach Hcur.
  destruct (current_file_pending lib st f Hreach Hcur)
    as (_ & _ & r & Hget & Hp).
  apply is_pending_true in Hp as (Henc & _).
  destruct (reachable_records_ok lib _ st Hreach f r Hget)
    as [Hext _ Hdet _ _ _ _].
  exists r. split; [done|]. split; [done|].
  rewrite Henc in Hdet. unfold detected_encrypted in Hdet. simpl in Hdet.
  rewrite <-Hext in Hdet.
  destruct (decide (extension r = "pdf")) as [Hpdf|Hpdf].
  - split_and!; [|done|done]. rewrite Hpdf. apply elem_of_cons. by left.
  - destruct (decide (extension r ∈ ["docx"; "xlsx"; "pptx"])) as [Hoff|Hoff];
      [|done].
    split_and!; [|done|done]. apply elem_of_cons. by right.
Qed.

End prompts.

(** ** The further properties on the example batch *)

Lemma example_state_reachable_unique :
  reachable_by example_library unique_names example_state.
Proof.
  apply (reach_step _ _ initial_state (Run example_batch)).
  - apply reach_init.
  - simpl. by apply (bool_decide_unpack _).
Qed.

Lemma example_opened_reachable_unique :
  reachable_by example_library unique_names example_opened.
Proof.
  apply (reach_step _ _ (example_typed "y") Submit); [|done].
  apply (reach_step _ _ example_state (TypePassword "y")); [|done].
  apply example_state_reachable_unique.
Qed.

Lemma example_finished_reachable : reachable example_library example_finished.
Proof. apply run_events_reachable, example_state_reachable. Qed.

Lemma run_forgets_previous_state_witness :
  (run_button example_library example_batch initial_state).2 =
    (run_button example_library example_batch example_opened).2 ∧
  (step example_library (Run example_batch) initial_state).2 =
    (step example_library (Run example_batch) example_opened).2 ∧
  run_button example_library [] initial_state = (Ok (), initial_state).
Proof.
  apply (run_forgets_previous_state example_library example_batch
           initial_state example_opened).
  discriminate.
Defined.

Lemma ingest_unique_names_table_witness :
  ∃ st',
    run_button example_library example_batch initial_state = (Ok (), st') ∧
    file_status st' =
      (λ file, (name file, ingested_record example_library file))
        <$> example_batch ∧
    decrypted_files st' =
      name <$> filter (λ file, detected_encrypted example_library file = false)
                 example_batch ∧
    pending_files (file_status st') =
      name <$> filter (λ file, detected_encrypted example_library file = true)
                 example_batch ∧
    excluded_files st' = [] ∧
    error_message st' = "" ∧
    password_input st' = "".
Proof.
  apply (ingest_unique_names_table example_library example_batch initial_state).
  - discriminate.
  - by apply (bool_decide_unpack _).
Defined.

Lemma processing_iff_pending_witness :
  processing example_state = true ↔
  ∃ f, (get_current_file example_state).1 = Ok (Some f).
Proof.
  apply (processing_iff_pending example_library example_state).
  apply example_state_reachable.
Defined.

Lemma resolution_is_final_witness :
  Dict.get "a.pdf" (file_status (step example_library Cancel example_state).2)
  = Some (ingested_record example_library example_a).
Proof.
  apply (resolution_is_final example_library example_state "a.pdf"
           (ingested_record example_library example_a) Cancel).
  - apply example_state_reachable.
  - reflexivity.
  - reflexivity.
  - simpl. tauto.
Defined.

Lemma records_keep_identity_witness :
  Dict.keys (file_status (step example_library Cancel example_state).2) =
    Dict.keys (file_status example_state) ∧
  ∀ f r, Dict.get f (file_status example_state) = Some r →
    ∃ r', Dict.get f (file_status (step example_library Cancel example_state).2)
            = Some r' ∧
          extension r' = extension r ∧
          encrypted r' = encrypted r ∧
          file_bytes r' = file_bytes r ∧
          (decrypted r = true → decrypted r' = true) ∧
          (excluded r = true → excluded r' = true).
Proof.
  apply (records_keep_identity example_library example_state Cancel).
  - apply example_state_reachable.
  - simpl. tauto.
Defined.

Lemma resolving_pops_current_witness :
  pending_files (file_status (handle_cancel (example_typed "y")).2) = ["c.pdf"] ∧
  (get_current_file (handle_cancel (example_typed "y")).2).1 =
    Ok (head ["c.pdf"]) ∧
  (∀ r, Dict.get "b.docx" (file_status (example_typed "y")) = Some r →
        truthy (password_input (example_typed "y")) = true →
        is_Some (attempt example_library r (password_input (example_typed "y"))) →
        pending_files
          (file_status (handle_submit example_library (example_typed "y")).2)
        = ["c.pdf"] ∧
        (get_current_file
           (handle_submit example_library (example_typed "y")).2).1 =
          Ok (head ["c.pdf"])).
Proof.
  apply (resolving_pops_current example_library (example_typed "y") "b.docx"
           ["c.pdf"]).
  - apply example_typed_reachable.
  - reflexivity.
Defined.

Lemma cancel_all_witness :
  pending_files
    (file_status
       (run_events example_library
          (replicate
             (List.length (pending_files (file_status example_state))) Cancel)
          example_state)) = [] ∧
  processing
    (run_events example_library
       (replicate
          (List.length (pending_files (file_status example_state))) Cancel)
       example_state)
    = false ∧
  excluded_files
    (run_events example_library
       (replicate
          (List.length (pending_files (file_status example_state))) Cancel)
       example_state)
    = excluded_files example_state ++ pending_files (file_status example_state) ∧
  decrypted_files
    (run_events example_library
       (replicate
          (List.length (pending_files (file_status example_state))) Cancel)
       example_state)
    = decrypted_files example_state.
Proof.
  apply (cancel_all example_library example_state).
  apply example_state_reachable.
Defined.

Lemma retries_leave_no_trace_witness :
  run_events example_library (attempts [""; "nope"] ++ attempts ["y"])
    example_state =
  run_events example_library (attempts ["y"]) example_state.
Proof.
  apply (retries_leave_no_trace example_library example_state "b.docx"
           (ingested_record example_library example_b) [""; "nope"] "y").
  - apply example_state_reachable.
  - reflexivity.
  - reflexivity.
  - constructor; [by left|]. constructor; [by right|]. constructor.
  - reflexivity.
  - by eexists.
Defined.

Lemma names_are_partitioned_witness :
  decrypted_files example_opened ++ excluded_files example_opened ++
    pending_files (file_status example_opened)
    ≡ₚ Dict.keys (file_status example_opened) ∧
  (pending_files (file_status example_opened) = [] →
   decrypted_files example_opened ++ excluded_files example_opened
     ≡ₚ Dict.keys (file_status example_opened)).
Proof.
  apply (names_are_partitioned example_library example_opened).
  apply example_opened_reachable_unique.
Defined.

Lemma raising_decrypt_is_wrong_password_witness :
  handle_submit example_library (example_typed "wrong") =
  (Ok (), with_error_message msg_password_incorrect (example_typed "wrong")).
Proof.
  apply (raising_decrypt_is_wrong_password example_library
           (example_typed "wrong") "b.docx"
           (ingested_record example_library example_b)).
  - apply example_typed_reachable.
  - reflexivity.
  - reflexivity.
  - reflexivity.
  - discriminate.
  - reflexivity.
Defined.

Lemma extension_recognised_iff_witness :
  extension_of "Report.v2.PdF" = "pdf" ↔
  ∃ ext, case_variant ext "pdf" = true ∧ ends_in "Report.v2.PdF" ext.
Proof.
  apply (extension_recognised_iff "Report.v2.PdF" "pdf").
  apply elem_of_cons. by left.
Defined.

Lemma dialog_after_wrong_password_witness :
  (password_dialog
     (handle_submit example_library (example_typed "wrong")).2).1 =
  Ok (Rendered
        [Markdown (msg_dialog_heading "b.docx");
         ErrorBox msg_password_incorrect;
         TextInput "パスワード" "password_input"
           (password_input (example_typed "wrong"));
         Button "Submit" "submit_password" Submit;
         Button "Cancel" "cancel_password" Cancel]).
Proof.
  apply (dialog_after_wrong_password example_library (example_typed "wrong")
           "b.docx" (ingested_record example_library example_b)).
  - apply example_typed_reachable.
  - reflexivity.
  - reflexivity.
  - reflexivity.
  - reflexivity.
Defined.

Lemma dialog_after_resolution_witness :
  (password_dialog (handle_cancel (example_typed "y")).2).1 =
    Ok (Rendered
          [Markdown (msg_dialog_heading "c.pdf");
           ErrorBox (msg_cancelled "b.docx");
           TextInput "パスワード" "password_input" "";
           Button "Submit" "submit_password" Submit;
           Button "Cancel" "cancel_password" Cancel]) ∧
  (∀ r, Dict.get "b.docx" (file_status (example_typed "y")) = Some r →
        truthy (password_input (example_typed "y")) = true →
        is_Some (attempt example_library r (password_input (example_typed "y"))) →
        (password_dialog
           (handle_submit example_library (example_typed "y")).2).1 =
          Ok (Rendered
                [Markdown (msg_dialog_heading "c.pdf");
                 TextInput "パスワード" "password_input" "";
                 Button "Submit" "submit_password" Submit;
                 Button "Cancel" "cancel_password" Cancel])).
Proof.
  apply (dialog_after_resolution example_library (example_typed "y") "b.docx"
           ["c.pdf"]).
  - apply example_typed_reachable.
  - reflexivity.
Defined.

Lemma report_names_every_file_once_witness :
  ∃ elements,
    event_view example_library Cancel example_opened =
      (Ok (Rendered elements), (step example_library Cancel example_opened).2) ∧
    (Success msg_all_done ∈ elements →
     pending_files
       (file_status (step example_library Cancel example_opened).2) = [] ∧
     processing (step example_library Cancel example_opened).2 = false ∧
     written_names elements =
       decrypted_files (step example_library Cancel example_opened).2 ++
       excluded_files (step example_library Cancel example_opened).2 ∧
     written_names elements
       ≡ₚ Dict.keys
            (file_status (step example_library Cancel example_opened).2)).
Proof.
  apply (report_names_every_file_once example_library example_opened Cancel).
  - apply example_opened_reachable_unique.
  - exact I.
Defined.

Lemma report_shown_once_witness :
  event_view example_library Submit example_finished =
    (Ok (Rendered []), (step example_library Submit example_finished).2) ∧
  file_status (step example_library Submit example_finished).2 =
    file_status example_finished ∧
  decrypted_files (step example_library Submit example_finished).2 =
    decrypted_files example_finished ∧
  excluded_files (step example_library Submit example_finished).2 =
    excluded_files example_finished ∧
  processing (step example_library Submit example_finished).2 = false.
Proof.
  apply (report_shown_once example_library example_finished Submit).
  - apply example_finished_reachable.
  - reflexivity.
  - simpl. tauto.
Defined.

Lemma prompt_only_for_detected_files_witness :
  ∃ r,
    Dict.get "b.docx" (file_status example_state) = Some r ∧
    extension r = extension_of "b.docx" ∧
    extension r ∈ ["pdf"; "docx"; "xlsx"; "pptx"] ∧
    (extension r = "pdf" →
     is_pdf_encrypted example_library (file_bytes r) = true) ∧
    (extension r ≠ "pdf" →
     is_office_encrypted example_library (file_bytes r) = true).
Proof.
  apply (prompt_only_for_detected_files example_library example_state "b.docx").
  - apply example_state_reachable.
  - reflexivity.
Defined.
